(** * graphs.py: directed and undirected graphs over adjacency lists

    A shallow embedding of [src/graphs.py].  The adjacency mapping
    [self._graph] is a [defaultdict(list)]; since a Python dict iterates
    in insertion order and several methods ([nodes], [isolated_nodes],
    [diameter], [__str__]) depend on that order, it is modelled as an
    association list in insertion order.  Methods that mutate the mapping
    return the new mapping. *)

From Stdlib Require Import String List Bool Arith ZArith Lia Permutation Sorted.
Import ListNotations.


(** ** Python runtime pieces used by the module *)

(** Node labels are hashable values compared with [==]. *)
Class Hashable (Node : Type) :=
  node_eq_dec : forall x y : Node, {x = y} + {x <> y}.

#[export] Instance string_Hashable : Hashable string := string_dec.
#[export] Instance nat_Hashable : Hashable nat := Nat.eq_dec.

(** The only exception the module can raise on well-typed input:
    [min()] / [max()] of an empty iterable. *)
Inductive exn : Type := ValueError.

(** [min(iterable)]: keeps the first item and replaces it whenever a
    strictly smaller item is met. *)
Definition py_min {A : Type} (ltb : A -> A -> bool) (xs : list A) : exn + A :=
  match xs with
  | [] => inl ValueError
  | x :: xs' => inr (fold_left (fun best y => if ltb y best then y else best) xs' x)
  end.

(** [max(iterable)]. *)
Definition py_max {A : Type} (ltb : A -> A -> bool) (xs : list A) : exn + A :=
  match xs with
  | [] => inl ValueError
  | x :: xs' => inr (fold_left (fun best y => if ltb best y then y else best) xs' x)
  end.

(** [itertools.combinations(xs, 2)]. *)
Fixpoint combinations2 {A : Type} (xs : list A) : list (A * A) :=
  match xs with
  | [] => []
  | x :: xs' => map (fun y => (x, y)) xs' ++ combinations2 xs'
  end.

(** [sorted(xs, reverse=True)] on ints: the items of [xs] arranged in
    descending order (equal ints cannot be told apart, so the
    arrangement does not depend on the sorting algorithm). *)
Fixpoint insert_desc (x : nat) (xs : list nat) : list nat :=
  match xs with
  | [] => [x]
  | y :: xs' => if y <? x then x :: xs else y :: insert_desc x xs'
  end.

Definition sorted_reverse (xs : list nat) : list nat :=
  fold_right insert_desc [] xs.

(** ** class Graph *)

Section GraphBase.
Context {Node : Type} `{Hashable Node}.

(** [self._graph], keys in insertion order. *)
Definition Graph : Type := list (Node * list Node).

(** [x in xs] on a list. *)
Definition contains (xs : list Node) (x : Node) : bool :=
  if in_dec node_eq_dec x xs then true else false.

(** Lookup of a key that does not create it. *)
Fixpoint get (g : Graph) (n : Node) : option (list Node) :=
  match g with
  | [] => None
  | (k, v) :: g' => if node_eq_dec k n then Some v else get g' n
  end.

(** [n in self._graph]. *)
Definition has_key (g : Graph) (n : Node) : bool :=
  match get g n with Some _ => true | None => false end.

(** [self._graph[n]]: a missing key is created with an empty list,
    at the end of the mapping. *)
Definition getitem (g : Graph) (n : Node) : list Node * Graph :=
  match get g n with
  | Some v => (v, g)
  | None => ([], g ++ [(n, [])])
  end.

(** The adjacency list of [n] as [self._graph[n]] would read it. *)
Definition adj (g : Graph) (n : Node) : list Node := fst (getitem g n).

(** [self._graph[n].append(x)]. *)
Fixpoint append_at (g : Graph) (n x : Node) : Graph :=
  match g with
  | [] => [(n, [x])]
  | (k, v) :: g' =>
      if node_eq_dec k n then (k, v ++ [x]) :: g'
      else (k, v) :: append_at g' n x
  end.

Definition __len__ (g : Graph) : nat := length g.

Definition nodes (g : Graph) : list Node := map fst g.

Definition edges (g : Graph) : list (Node * Node) :=
  flat_map (fun kv => map (fun edge => (fst kv, edge)) (snd kv)) g.

Definition add_node (g : Graph) (node : Node) : Graph := snd (getitem g node).

(** The inner [for edge in self._graph.values()] loop of
    [isolated_nodes]: [true] when it leaves through [break]. *)
Fixpoint in_some_value (values : list (list Node)) (node : Node) : bool :=
  match values with
  | [] => false
  | edge :: rest => if contains edge node then true else in_some_value rest node
  end.

Definition isolated_nodes (g : Graph) : list Node :=
  fold_left
    (fun acc kv =>
       if length (snd kv) =? 0 then
         if in_some_value (map snd g) (fst kv) then acc else acc ++ [fst kv]
       else acc)
    g [].

(** The [for node in self._graph[start_node]] loop of
    [depth_first_search]: the first neighbour that is not in [path]. *)
Fixpoint first_unvisited (neighbours path : list Node) : option Node :=
  match neighbours with
  | [] => None
  | node :: rest =>
      if contains path node then first_unvisited rest path else Some node
  end.

(** [depth_first_search] with a bound on the number of nested calls.
    The outer [None] means the bound was reached; the inner option is
    the Python result ([None] or the path). *)
Fixpoint dfs_rec (fuel : nat) (g : Graph) (start_node end_node : Node)
    (path : list Node) : option (option (list Node)) :=
  match fuel with
  | O => None
  | S fuel' =>
      let path := path ++ [start_node] in
      if node_eq_dec start_node end_node then Some (Some path)
      else if negb (has_key g start_node) then Some None
      else match first_unvisited (adj g start_node) path with
           | Some node => dfs_rec fuel' g node end_node path
           | None => Some None
           end
  end.

(** [depth_first_search(start_node, end_node)] with [path=None]. *)
Definition depth_first_search (g : Graph) (start_node end_node : Node)
    : option (list Node) :=
  match dfs_rec (S (length (nodes g))) g start_node end_node [] with
  | Some r => r
  | None => None
  end.

Definition node_degree (g : Graph) (node : Node) : nat * Graph :=
  let (v, g') := getitem g node in
  (length v + count_occ node_eq_dec v node, g').

(** [map(self.node_degree, self._graph)]: every argument is a key, so
    the calls leave the mapping as it is. *)
Definition degrees (g : Graph) : list nat :=
  map (fun node => fst (node_degree g node)) (nodes g).

Definition delta (g : Graph) : exn + nat := py_min Nat.ltb (degrees g).
Definition min_degree := delta.

Definition Delta (g : Graph) : exn + nat := py_max Nat.ltb (degrees g).
Definition max_degree := Delta.

Definition is_connected (g : Graph) : bool :=
  length (isolated_nodes g) =? 0.

Definition distance (g : Graph) (start_node end_node : Node) : Z :=
  match depth_first_search g start_node end_node with
  | None => (-1)%Z
  | Some dist => (Z.of_nat (length dist) - 1)%Z
  end.

Definition diameter (g : Graph) : exn + Z :=
  py_max Z.ltb
    (map (fun p => distance g (fst p) (snd p)) (combinations2 (nodes g))).

(** [Graph.__init__]: the edges are inserted in order with the
    subclass's [add_edge]. *)
Definition init (add_edge : Graph -> Node * Node -> Graph)
    (edges : list (Node * Node)) : Graph :=
  fold_left add_edge edges [].
End GraphBase.

Arguments Graph Node : clear implicits.

(** ** class UndirectedGraph(Graph) *)

Module UndirectedGraph.
Section Defs.
Context {Node : Type} `{Hashable Node}.

(** [add_edge] turns the pair into a set and pops its elements.  Which
    element [set.pop()] returns first is decided by the runtime's hash
    table, not by this module: [pop_first a b] tells whether
    [set((a, b)).pop()] returns [a] (for [a <> b]). *)
Variable pop_first : Node -> Node -> bool.

Definition add_edge (g : Graph Node) (edge : Node * Node) : Graph Node :=
  let (a, b) := edge in
  if node_eq_dec a b then append_at g a a
  else
    let node1 := if pop_first a b then a else b in
    let node2 := if pop_first a b then b else a in
    append_at (append_at g node1 node2) node2 node1.

Definition new (edges : list (Node * Node)) : Graph Node := init add_edge edges.

(** The calls that can change an undirected graph after construction. *)
Inductive op : Type :=
| AddEdge (edge : Node * Node)
| AddNode (node : Node)
| NodeDegree (node : Node).

Definition step (g : Graph Node) (o : op) : Graph Node :=
  match o with
  | AddEdge edge => add_edge g edge
  | AddNode node => add_node g node
  | NodeDegree node => snd (node_degree g node)
  end.

Definition run (g : Graph Node) (ops : list op) : Graph Node := fold_left step ops g.

(** [tuple(sorted(map(self.node_degree, self._graph), reverse=True))]. *)
Definition degree_sequence (g : Graph Node) : list nat :=
  sorted_reverse (degrees g).
End Defs.
End UndirectedGraph.

(** ** class DirectedGraph(Graph) *)

Module DirectedGraph.
Section Defs.
Context {Node : Type} `{Hashable Node}.

Definition add_edge (g : Graph Node) (edge : Node * Node) : Graph Node :=
  append_at (add_node g (snd edge)) (fst edge) (snd edge).

Definition new (edges : list (Node * Node)) : Graph Node := init add_edge edges.
End Defs.
End DirectedGraph.

(** CPython's [set] built from a pair of small non-negative ints
    (below 32, where [hash(n) = n] and the probe perturbation is 0):
    the table has 8 slots, the first element of the pair goes to slot
    [a mod 8], the second to [b mod 8] or, when that slot is taken, to
    [(5 * i + 1) mod 8]; [pop()] returns the key in the lowest slot. *)
Definition cpython_pop_first (a b : nat) : bool :=
  let ia := a mod 8 in
  let ib := if b mod 8 =? ia then (5 * ia + 1) mod 8 else b mod 8 in
  ia <? ib.

(** ** Invariants of the mapping *)

Section Invariants.
Context {Node : Type} `{Hashable Node}.

(** Every node mentioned in an adjacency list is a key. *)
Definition closed (g : Graph Node) : bool :=
  forallb (fun kv => forallb (has_key g) (snd kv)) g.

(** [b] occurs in the list of [a] as often as [a] in the list of [b]. *)
Definition symmetric (g : Graph Node) : Prop :=
  forall a b : Node,
    count_occ node_eq_dec (adj g a) b = count_occ node_eq_dec (adj g b) a.

(** Each node of the sequence is in the adjacency list of the one before. *)
Fixpoint walk (g : Graph Node) (p : list Node) : bool :=
  match p with
  | [] => true
  | x :: rest =>
      match rest with
      | [] => true
      | y :: _ => contains (adj g x) y && walk g rest
      end
  end.

(** The nodes an edge list mentions. *)
Definition endpoints (edges : list (Node * Node)) : list Node :=
  flat_map (fun edge => [fst edge; snd edge]) edges.

(** A node that is not a key and that no adjacency list mentions. *)
Definition unmentioned (g : Graph Node) (n : Node) : bool :=
  negb (has_key g n) && negb (in_some_value (map snd g) n).

(** [g'] has the keys of [g] first and in the same order, and each of
    its adjacency lists starts with the list [g] had. *)
Definition extends (g' g : Graph Node) : Prop :=
  (exists ks, nodes g' = nodes g ++ ks) /\
  (forall n, exists l, adj g' n = adj g n ++ l).

(** The sum of [len(v) + v.count(k)] over the items [(k, v)]. *)
Definition total_degree (g : Graph Node) : nat :=
  list_sum (map (fun kv => length (snd kv) + count_occ node_eq_dec (snd kv) (fst kv)) g).
End Invariants.

(** ** Concrete graphs *)

(** A runtime whose sets always pop the first element of the pair. *)
Definition pop_in_order (a b : string) : bool := true.

(** The graph of the module docstring. *)
Definition docstring_graph : Graph string :=
  UndirectedGraph.new pop_in_order
    [("a", "b"); ("a", "c"); ("c", "c")]%string.

(** * Properties *)

(** ** The adjacency mapping *)

Section MappingFacts.
Context {Node : Type} `{Hashable Node}.
Implicit Types (g : Graph Node) (n m x : Node).

Lemma contains_In (xs : list Node) x : contains xs x = true <-> In x xs.
Proof.
  unfold contains. destruct (in_dec node_eq_dec x xs); split; auto; discriminate.
Qed.

Lemma contains_not_In (xs : list Node) x : contains xs x = false <-> ~ In x xs.
Proof.
  unfold contains. destruct (in_dec node_eq_dec x xs); split; auto; try discriminate.
  intros Hn. contradiction.
Qed.

Lemma has_key_In g n : has_key g n = true <-> In n (nodes g).
Proof.
  unfold has_key. induction g as [|[k v] g IH]; simpl.
  - split; [discriminate | tauto].
  - destruct (node_eq_dec k n) as [->|Hne].
    + split; auto.
    + rewrite IH. split; [auto | intros [E|I]; [contradiction | exact I]].
Qed.

Lemma has_key_not_In g n : has_key g n = false <-> ~ In n (nodes g).
Proof.
  rewrite <- has_key_In. destruct (has_key g n); split; congruence.
Qed.

Lemma get_None_has_key g n : get g n = None <-> has_key g n = false.
Proof. unfold has_key. destruct (get g n); split; congruence. Qed.

Lemma adj_get g n : adj g n = match get g n with Some v => v | None => [] end.
Proof. unfold adj, getitem. destruct (get g n); reflexivity. Qed.

Lemma get_app_absent g n v : get g n = None -> get (g ++ [(n, v)]) n = Some v.
Proof.
  induction g as [|[k w] g IH]; simpl.
  - destruct (node_eq_dec n n); congruence.
  - destruct (node_eq_dec k n); [discriminate | exact IH].
Qed.

Lemma get_app_other g n m v : n <> m -> get (g ++ [(n, v)]) m = get g m.
Proof.
  intros Hne. induction g as [|[k w] g IH]; simpl.
  - destruct (node_eq_dec n m); congruence.
  - destruct (node_eq_dec k m); [reflexivity | exact IH].
Qed.

Lemma get_Some_In g k v : get g k = Some v -> In (k, v) g.
Proof.
  induction g as [|[k' v'] g IH]; simpl; [discriminate|].
  destruct (node_eq_dec k' k) as [->|Hne].
  - intros [= ->]. now left.
  - intros Hg. right. now apply IH.
Qed.

(** In a mapping every key occurs once, so an item is what a lookup finds. *)
Lemma NoDup_get g k v : NoDup (nodes g) -> In (k, v) g -> get g k = Some v.
Proof.
  induction g as [|[k' v'] g IH]; simpl; intros Hnd Hin; [contradiction|].
  inversion Hnd as [|? ? Hk Hnd']; subst.
  destruct Hin as [E|Hin].
  - injection E as -> ->. destruct (node_eq_dec k k); congruence.
  - destruct (node_eq_dec k' k) as [->|Hne]; [|now apply IH].
    exfalso. apply Hk. change k with (fst (k, v)). now apply in_map.
Qed.

(** [self._graph[n].append(x)] on a missing key adds the key at the end. *)
Lemma append_at_absent g n x :
  has_key g n = false -> append_at g n x = g ++ [(n, [x])].
Proof.
  unfold has_key. induction g as [|[k v] g IH]; simpl; [reflexivity|].
  destruct (node_eq_dec k n); [discriminate|].
  intros Hg. now rewrite IH.
Qed.

Lemma get_append_at g n x m :
  get (append_at g n x) m =
  if node_eq_dec n m then Some (adj g n ++ [x]) else get g m.
Proof.
  rewrite adj_get.
  induction g as [|[k v] g IH]; simpl.
  - destruct (node_eq_dec n m); reflexivity.
  - destruct (node_eq_dec k n) as [->|Hkn]; simpl.
    + destruct (node_eq_dec n m); reflexivity.
    + destruct (node_eq_dec k m) as [->|Hkm].
      * destruct (node_eq_dec n m); congruence.
      * exact IH.
Qed.

Lemma adj_append_at g n x m :
  adj (append_at g n x) m = if node_eq_dec n m then adj g n ++ [x] else adj g m.
Proof.
  rewrite (adj_get (append_at g n x)), get_append_at.
  destruct (node_eq_dec n m); [reflexivity | now rewrite adj_get].
Qed.

Lemma nodes_append_at g n x :
  nodes (append_at g n x) = if has_key g n then nodes g else nodes g ++ [n].
Proof.
  unfold has_key, nodes. induction g as [|[k v] g IH]; simpl; [reflexivity|].
  destruct (node_eq_dec k n); simpl; [reflexivity|].
  rewrite IH. destruct (get g n); reflexivity.
Qed.

Lemma has_key_append_at g n x m :
  has_key (append_at g n x) m = if node_eq_dec n m then true else has_key g m.
Proof.
  unfold has_key. rewrite get_append_at. destruct (node_eq_dec n m); reflexivity.
Qed.

(** [self._graph[n]] never changes what any key maps to. *)
Lemma adj_add_node g n m : adj (add_node g n) m = adj g m.
Proof.
  unfold add_node, getitem. destruct (get g n) eqn:E; simpl; [reflexivity|].
  rewrite !adj_get. destruct (node_eq_dec n m) as [->|Hne].
  - now rewrite get_app_absent, E.
  - now rewrite get_app_other.
Qed.

Lemma get_add_node g n m :
  get (add_node g n) m = if node_eq_dec n m then Some (adj g n) else get g m.
Proof.
  rewrite adj_get. unfold add_node, getitem.
  destruct (get g n) eqn:E; simpl.
  - destruct (node_eq_dec n m) as [<-|Hne]; [exact E | reflexivity].
  - destruct (node_eq_dec n m) as [<-|Hne];
      [now apply get_app_absent | now apply get_app_other].
Qed.

Lemma add_node_present g n : has_key g n = true -> add_node g n = g.
Proof.
  unfold add_node, getitem, has_key. destruct (get g n); [reflexivity | discriminate].
Qed.

Lemma nodes_add_node g n :
  nodes (add_node g n) = if has_key g n then nodes g else nodes g ++ [n].
Proof.
  unfold add_node, getitem, has_key, nodes. destruct (get g n); simpl; [reflexivity|].
  now rewrite map_app.
Qed.

Lemma has_key_add_node g n m :
  has_key (add_node g n) m = if node_eq_dec n m then true else has_key g m.
Proof.
  destruct (node_eq_dec n m) as [->|Hne].
  - apply has_key_In. rewrite nodes_add_node.
    destruct (has_key g m) eqn:E; [now apply has_key_In|].
    apply in_or_app; right; now left.
  - unfold add_node, getitem, has_key. destruct (get g n) eqn:E; simpl; [reflexivity|].
    now rewrite get_app_other.
Qed.

Lemma node_degree_fst g n :
  fst (node_degree g n) = length (adj g n) + count_occ node_eq_dec (adj g n) n.
Proof. unfold node_degree, adj. destruct (getitem g n); reflexivity. Qed.

Lemma node_degree_snd g n : snd (node_degree g n) = add_node g n.
Proof. unfold node_degree, add_node. destruct (getitem g n); reflexivity. Qed.

End MappingFacts.

(** ** Depth-first search *)

Section SearchFacts.
Context {Node : Type} `{Hashable Node}.
Implicit Types (g : Graph Node) (n s e : Node) (path p : list Node).

Lemma first_unvisited_Some nbrs path n :
  first_unvisited nbrs path = Some n -> In n nbrs /\ ~ In n path.
Proof.
  induction nbrs as [|a nbrs IH]; simpl; [discriminate|].
  destruct (contains path a) eqn:E.
  - intros Hf. destruct (IH Hf). auto.
  - intros [= ->]. split; [now left | now apply contains_not_In].
Qed.

Lemma first_unvisited_None nbrs path :
  first_unvisited nbrs path = None <-> incl nbrs path.
Proof.
  induction nbrs as [|a nbrs IH]; simpl.
  - split; [intros _ x [] | reflexivity].
  - destruct (contains path a) eqn:E.
    + rewrite IH. apply contains_In in E. split.
      * intros Hi x [<-|Hx]; auto.
      * intros Hi x Hx. apply Hi. now right.
    + apply contains_not_In in E. split; [discriminate|].
      intros Hi. exfalso. apply E, Hi. now left.
Qed.

(** A search that returned keeps its result under a larger bound. *)
Lemma dfs_rec_more_fuel fuel : forall fuel' g s e path r,
  dfs_rec fuel g s e path = Some r -> fuel <= fuel' ->
  dfs_rec fuel' g s e path = Some r.
Proof.
  induction fuel as [|fuel IH]; intros fuel' g s e path r Hr Hle; simpl in Hr.
  - discriminate.
  - destruct fuel' as [|fuel']; [lia|]. simpl.
    destruct (node_eq_dec s e); [exact Hr|].
    destruct (negb (has_key g s)); [exact Hr|].
    destruct (first_unvisited (adj g s) (path ++ [s])); [|exact Hr].
    apply IH; [exact Hr | lia].
Qed.

(** The accumulated path never repeats a node and, up to the node being
    visited, consists of keys: so its length, which is the number of
    nested calls, cannot exceed the number of keys by more than one. *)
Lemma dfs_rec_returns fuel : forall g s e path,
  NoDup path -> ~ In s path -> incl path (nodes g) ->
  length (nodes g) < fuel + length path ->
  dfs_rec fuel g s e path <> None.
Proof.
  induction fuel as [|fuel IH]; intros g s e path Hnd Hs Hincl Hlen.
  - pose proof (NoDup_incl_length Hnd Hincl). simpl in Hlen. lia.
  - simpl. destruct (node_eq_dec s e) as [|Hse]; [discriminate|].
    destruct (has_key g s) eqn:Hk; simpl; [|discriminate].
    destruct (first_unvisited (adj g s) (path ++ [s])) as [n|] eqn:Hf; [|discriminate].
    apply first_unvisited_Some in Hf. destruct Hf as [_ Hn].
    apply IH.
    + apply NoDup_app; [exact Hnd | repeat constructor; auto | ].
      intros x Hx [<-|[]]. contradiction.
    + exact Hn.
    + intros x Hx. apply in_app_or in Hx. destruct Hx as [Hx|[<-|[]]]; auto.
      now apply has_key_In.
    + rewrite length_app. simpl. lia.
Qed.

Lemma closed_adj g k n : closed g = true -> In n (adj g k) -> In n (nodes g).
Proof.
  unfold closed. rewrite forallb_forall. intros Hc Hn.
  rewrite adj_get in Hn. destruct (get g k) as [v|] eqn:E; [|contradiction].
  apply get_Some_In in E. specialize (Hc _ E). simpl in Hc.
  rewrite forallb_forall in Hc. now apply has_key_In, Hc.
Qed.

Lemma dfs_rec_returns_closed fuel : forall g s e path,
  closed g = true -> NoDup (path ++ [s]) -> incl (path ++ [s]) (nodes g) ->
  length (nodes g) <= fuel + length path ->
  dfs_rec fuel g s e path <> None.
Proof.
  induction fuel as [|fuel IH]; intros g s e path Hc Hnd Hincl Hlen.
  - pose proof (NoDup_incl_length Hnd Hincl) as Hl.
    rewrite length_app in Hl. simpl in Hl, Hlen. lia.
  - simpl. destruct (node_eq_dec s e) as [|Hse]; [discriminate|].
    destruct (has_key g s) eqn:Hk; simpl; [|discriminate].
    destruct (first_unvisited (adj g s) (path ++ [s])) as [n|] eqn:Hf; [|discriminate].
    apply first_unvisited_Some in Hf. destruct Hf as [Hadj Hn].
    apply IH; [exact Hc | | | ].
    + apply NoDup_app; [exact Hnd | repeat constructor; auto | ].
      intros x Hx [<-|[]]. contradiction.
    + intros x Hx. apply in_app_or in Hx. destruct Hx as [Hx|[<-|[]]]; auto.
      now apply closed_adj with s.
    + rewrite length_app. simpl. lia.
Qed.

(** What a returned path looks like: it extends the accumulated path
    with the node being visited, ends with the target, consists of keys
    up to its last node, and repeats no node. *)
Lemma dfs_rec_path fuel : forall g s e path p,
  dfs_rec fuel g s e path = Some (Some p) ->
  (exists q, p = path ++ s :: q) /\
  (exists q, p = q ++ [e] /\ (incl path (nodes g) -> incl q (nodes g))) /\
  (NoDup path -> ~ In s path -> NoDup p).
Proof.
  induction fuel as [|fuel IH]; intros g s e path p Hr; simpl in Hr.
  - discriminate.
  - destruct (node_eq_dec s e) as [->|Hne].
    + injection Hr as <-. split; [now exists []|]. split; [now exists path|].
      intros Hnd Hs. apply NoDup_app; [exact Hnd | repeat constructor; auto | ].
      intros x Hx [<-|[]]. contradiction.
    + destruct (has_key g s) eqn:Hk; simpl in Hr; [|discriminate].
      destruct (first_unvisited (adj g s) (path ++ [s])) as [n|] eqn:Hf; [|discriminate].
      apply first_unvisited_Some in Hf. destruct Hf as [_ Hn].
      apply IH in Hr. destruct Hr as ((q & ->) & (q' & Hq' & Hincl) & Hnd').
      split; [exists (n :: q); now rewrite <- app_assoc|].
      split.
      * exists q'. split; [exact Hq'|]. intros Hp. apply Hincl.
        intros x Hx. apply in_app_or in Hx. destruct Hx as [Hx|[<-|[]]]; auto.
        now apply has_key_In.
      * intros Hnd Hs. apply Hnd'; [|exact Hn].
        apply NoDup_app; [exact Hnd | repeat constructor; auto | ].
        intros x Hx [<-|[]]. contradiction.
Qed.

Lemma depth_first_search_path g s e p :
  depth_first_search g s e = Some p ->
  (exists q, p = s :: q) /\ (exists q, p = q ++ [e]) /\ NoDup p /\
  1 <= length p <= S (length (nodes g)).
Proof.
  unfold depth_first_search.
  destruct (dfs_rec (S (length (nodes g))) g s e []) as [r|] eqn:E; [|discriminate].
  intros ->. apply dfs_rec_path in E.
  destruct E as (Hhead & (q & -> & Hincl) & Hnd).
  specialize (Hnd (NoDup_nil _) (fun F => F)).
  split; [exact Hhead|]. split; [now exists q|]. split; [exact Hnd|].
  rewrite length_app. simpl. split; [lia|].
  apply NoDup_remove_1 with (l' := []) in Hnd. rewrite app_nil_r in Hnd.
  assert (Hq : incl q (nodes g)) by (apply Hincl; intros x []).
  pose proof (NoDup_incl_length Hnd Hq). lia.
Qed.

Lemma depth_first_search_fuel g s e fuel :
  length (nodes g) < fuel ->
  dfs_rec fuel g s e [] = Some (depth_first_search g s e).
Proof.
  intros Hlt. unfold depth_first_search.
  assert (Hret : dfs_rec (S (length (nodes g))) g s e [] <> None).
  { apply dfs_rec_returns; [constructor | intros [] | intros x [] | simpl; lia]. }
  destruct (dfs_rec (S (length (nodes g))) g s e []) as [r|] eqn:E; [|congruence].
  apply dfs_rec_more_fuel with (S (length (nodes g))); [exact E | lia].
Qed.

Lemma depth_first_search_same g s : depth_first_search g s s = Some [s].
Proof.
  unfold depth_first_search. simpl.
  destruct (node_eq_dec s s); [reflexivity | congruence].
Qed.

Lemma depth_first_search_absent g s e :
  has_key g s = false -> s <> e -> depth_first_search g s e = None.
Proof.
  intros Hk Hne. unfold depth_first_search. simpl.
  destruct (node_eq_dec s e); [contradiction|]. now rewrite Hk.
Qed.

End SearchFacts.

(** ** [min] and [max] *)

Lemma py_min_fold (xs : list nat) : forall x,
  let m := fold_left (fun best y => if y <? best then y else best) xs x in
  m <= x /\ (forall y, In y xs -> m <= y) /\ (m = x \/ In m xs).
Proof.
  induction xs as [|a xs IH]; intros x; simpl.
  - repeat split; auto. intros y [].
  - destruct (IH (if a <? x then a else x)) as (H1 & H2 & H3).
    destruct (a <? x) eqn:E; [apply Nat.ltb_lt in E | apply Nat.ltb_ge in E].
    + repeat split; [lia | | destruct H3 as [H3|H3]; [rewrite H3|]; auto].
      intros y [<-|Hy]; [exact H1 | now apply H2].
    + repeat split; [lia | | destruct H3 as [H3|H3]; [rewrite H3|]; auto].
      intros y [<-|Hy]; [lia | now apply H2].
Qed.

Lemma py_max_fold (xs : list nat) : forall x,
  let m := fold_left (fun best y => if best <? y then y else best) xs x in
  x <= m /\ (forall y, In y xs -> y <= m) /\ (m = x \/ In m xs).
Proof.
  induction xs as [|a xs IH]; intros x; simpl.
  - repeat split; auto. intros y [].
  - destruct (IH (if x <? a then a else x)) as (H1 & H2 & H3).
    destruct (x <? a) eqn:E; [apply Nat.ltb_lt in E | apply Nat.ltb_ge in E].
    + repeat split; [lia | | destruct H3 as [H3|H3]; [rewrite H3|]; auto].
      intros y [<-|Hy]; [exact H1 | now apply H2].
    + repeat split; [lia | | destruct H3 as [H3|H3]; [rewrite H3|]; auto].
      intros y [<-|Hy]; [lia | now apply H2].
Qed.

Lemma py_min_spec (xs : list nat) :
  xs <> [] ->
  exists m, py_min Nat.ltb xs = inr m /\ In m xs /\ forall y, In y xs -> m <= y.
Proof.
  destruct xs as [|x xs]; [congruence|]. intros _. simpl.
  destruct (py_min_fold xs x) as (H1 & H2 & H3).
  eexists. split; [reflexivity|]. split.
  - destruct H3 as [->|H3]; [now left | now right].
  - intros y [<-|Hy]; [exact H1 | now apply H2].
Qed.

Lemma py_max_spec (xs : list nat) :
  xs <> [] ->
  exists m, py_max Nat.ltb xs = inr m /\ In m xs /\ forall y, In y xs -> y <= m.
Proof.
  destruct xs as [|x xs]; [congruence|]. intros _. simpl.
  destruct (py_max_fold xs x) as (H1 & H2 & H3).
  eexists. split; [reflexivity|]. split.
  - destruct H3 as [->|H3]; [now left | now right].
  - intros y [<-|Hy]; [exact H1 | now apply H2].
Qed.

(** ** Isolated nodes *)

Section IsolatedFacts.
Context {Node : Type} `{Hashable Node}.
Implicit Types (g : Graph Node) (n m : Node).

Lemma in_some_value_true (values : list (list Node)) n :
  in_some_value values n = true <-> exists v, In v values /\ In n v.
Proof.
  induction values as [|v values IH]; simpl.
  - split; [discriminate | intros (v & [] & _)].
  - destruct (contains v n) eqn:E.
    + apply contains_In in E. split; [|reflexivity].
      intros _. exists v. auto.
    + apply contains_not_In in E. rewrite IH. split.
      * intros (w & Hw & Hn). exists w. auto.
      * intros (w & [<-|Hw] & Hn); [contradiction|]. exists w. auto.
Qed.

(** The loop of [isolated_nodes] keeps, in order, the keys of the items
    that pass its two tests. *)
Lemma isolated_nodes_loop (values : list (list Node)) (items : Graph Node) :
  forall acc,
  fold_left
    (fun acc kv =>
       if length (snd kv) =? 0 then
         if in_some_value values (fst kv) then acc else acc ++ [fst kv]
       else acc)
    items acc
  = acc ++ map fst (filter (fun kv => (length (snd kv) =? 0)
                                       && negb (in_some_value values (fst kv))) items).
Proof.
  induction items as [|kv items IH]; intros acc; simpl.
  - now rewrite app_nil_r.
  - rewrite IH. destruct (length (snd kv) =? 0); simpl; [|reflexivity].
    destruct (in_some_value values (fst kv)); simpl; [reflexivity|].
    now rewrite <- app_assoc.
Qed.

Lemma isolated_nodes_filter_items g :
  isolated_nodes g =
  map fst (filter (fun kv => (length (snd kv) =? 0)
                             && negb (in_some_value (map snd g) (fst kv))) g).
Proof. unfold isolated_nodes. now rewrite isolated_nodes_loop. Qed.

Lemma filter_map_fst (Q : Node * list Node -> bool) (P : Node -> bool)
    (l : Graph Node) :
  (forall kv, In kv l -> Q kv = P (fst kv)) ->
  map fst (filter Q l) = filter P (map fst l).
Proof.
  induction l as [|kv l IH]; simpl; intros HQ; [reflexivity|].
  rewrite (HQ kv) by now left.
  destruct (P (fst kv)); simpl; rewrite IH; auto.
Qed.

Lemma in_some_value_adj g n :
  NoDup (nodes g) ->
  in_some_value (map snd g) n = existsb (fun m => contains (adj g m) n) (nodes g).
Proof.
  intros Hnd. apply eq_true_iff_eq.
  rewrite in_some_value_true, existsb_exists. split.
  - intros (v & Hv & Hn). apply in_map_iff in Hv. destruct Hv as ([k w] & <- & Hkw).
    exists k. split; [change k with (fst (k, w)); now apply in_map|].
    apply contains_In. rewrite adj_get, (@NoDup_get _ _ g k w Hnd Hkw). exact Hn.
  - intros (m & Hm & Hc). apply contains_In in Hc. rewrite adj_get in Hc.
    destruct (get g m) as [v|] eqn:E; [|contradiction].
    exists v. split; [|exact Hc].
    apply get_Some_In in E. change v with (snd (m, v)). now apply in_map.
Qed.

End IsolatedFacts.

(** ** Edge insertion *)

Ltac case_nodes :=
  repeat match goal with
         | |- context [node_eq_dec ?x ?y] =>
             destruct (node_eq_dec x y); subst; simpl; try congruence
         end.

Section InsertionFacts.
Context {Node : Type} `{Hashable Node}.
Implicit Types (g : Graph Node) (a b n m : Node).

(** Appends to two different keys commute as soon as one of the keys
    is already there; otherwise both keys are new and their order in the
    mapping is the order of the appends. *)
Lemma append_at_comm g n x m y :
  n <> m -> has_key g n = true \/ has_key g m = true ->
  append_at (append_at g n x) m y = append_at (append_at g m y) n x.
Proof.
  intros Hne. unfold has_key.
  induction g as [|[k v] g IH]; simpl.
  - intros [?|?]; discriminate.
  - destruct (node_eq_dec k n) as [Ekn|Hkn] eqn:Dn;
      destruct (node_eq_dec k m) as [Ekm|Hkm] eqn:Dm;
      simpl; rewrite ?Dn, ?Dm; try (intros; congruence).
    intros Hk. now rewrite IH.
Qed.

Lemma NoDup_append_at g n x : NoDup (nodes g) -> NoDup (nodes (append_at g n x)).
Proof.
  intros Hnd. rewrite nodes_append_at. destruct (has_key g n) eqn:E; [exact Hnd|].
  apply has_key_not_In in E.
  apply NoDup_app; [exact Hnd | repeat constructor; auto | ].
  intros y Hy [<-|[]]. contradiction.
Qed.

Lemma NoDup_add_node g n : NoDup (nodes g) -> NoDup (nodes (add_node g n)).
Proof.
  intros Hnd. rewrite nodes_add_node. destruct (has_key g n) eqn:E; [exact Hnd|].
  apply has_key_not_In in E.
  apply NoDup_app; [exact Hnd | repeat constructor; auto | ].
  intros y Hy [<-|[]]. contradiction.
Qed.

(** [closed] read through lookups. *)
Lemma closed_iff g :
  NoDup (nodes g) ->
  closed g = true <-> forall k n, In n (adj g k) -> has_key g n = true.
Proof.
  intros Hnd. split.
  - intros Hc k n Hn. apply has_key_In. now apply closed_adj with k.
  - intros Hc. unfold closed. apply forallb_forall. intros [k v] Hkv. simpl.
    apply forallb_forall. intros n Hn. apply (Hc k).
    now rewrite adj_get, (@NoDup_get _ _ g k v Hnd Hkv).
Qed.

(** *** UndirectedGraph.add_edge *)

Section Undirected.
Variable pop_first : Node -> Node -> bool.
Local Abbreviation add_edge := (UndirectedGraph.add_edge pop_first).

(** Whatever the set pops first, each endpoint gains the other one, and
    a self-loop gains itself once. *)
Lemma undirected_adj_add_edge g a b m :
  adj (add_edge g (a, b)) m =
  adj g m ++ (if node_eq_dec a m then [b] else if node_eq_dec b m then [a] else []).
Proof.
  unfold UndirectedGraph.add_edge.
  destruct (node_eq_dec a b) as [->|Hab]; [|destruct (pop_first a b)];
    rewrite ?adj_append_at; case_nodes; now rewrite app_nil_r.
Qed.

Lemma undirected_get_add_edge g a b m :
  get (add_edge g (a, b)) m =
  if node_eq_dec a m then Some (adj g m ++ [b])
  else if node_eq_dec b m then Some (adj g m ++ [a])
  else get g m.
Proof.
  unfold UndirectedGraph.add_edge.
  destruct (node_eq_dec a b) as [->|Hab]; [|destruct (pop_first a b)];
    rewrite ?get_append_at, ?adj_append_at; case_nodes.
Qed.

Lemma undirected_has_key_add_edge g a b m :
  has_key (add_edge g (a, b)) m =
  if node_eq_dec a m then true else if node_eq_dec b m then true else has_key g m.
Proof. unfold has_key. rewrite undirected_get_add_edge. case_nodes. Qed.

Lemma undirected_NoDup_add_edge g e :
  NoDup (nodes g) -> NoDup (nodes (add_edge g e)).
Proof.
  intros Hnd. destruct e as [a b]. unfold UndirectedGraph.add_edge.
  destruct (node_eq_dec a b); [|destruct (pop_first a b)];
    repeat apply NoDup_append_at; exact Hnd.
Qed.

Lemma undirected_closed_add_edge g e :
  NoDup (nodes g) -> closed g = true -> closed (add_edge g e) = true.
Proof.
  intros Hnd Hc. destruct e as [a b].
  apply closed_iff; [now apply undirected_NoDup_add_edge|].
  rewrite closed_iff in Hc by exact Hnd.
  intros k n. rewrite undirected_adj_add_edge, undirected_has_key_add_edge.
  intros Hn. apply in_app_or in Hn. destruct Hn as [Hn|Hn].
  - apply Hc in Hn. rewrite Hn. case_nodes.
  - revert Hn. destruct (node_eq_dec a k), (node_eq_dec b k); simpl;
      intros Hn; try contradiction; destruct Hn as [<-|[]]; case_nodes.
Qed.

Lemma undirected_symmetric_add_edge g e :
  symmetric g -> symmetric (add_edge g e).
Proof.
  intros Hs. destruct e as [a b]. intros p q.
  rewrite !undirected_adj_add_edge, !count_occ_app, (Hs p q).
  f_equal. case_nodes.
Qed.

Lemma undirected_add_edge_new g a b :
  a <> b -> has_key g a = false -> has_key g b = false ->
  add_edge g (a, b) =
  g ++ (if pop_first a b then [(a, [b]); (b, [a])] else [(b, [a]); (a, [b])]).
Proof.
  intros Hab Ha Hb. unfold UndirectedGraph.add_edge.
  destruct (node_eq_dec a b); [contradiction|].
  destruct (pop_first a b).
  - rewrite (append_at_absent (append_at g a b)).
    + rewrite append_at_absent by exact Ha. now rewrite <- app_assoc.
    + rewrite has_key_append_at. destruct (node_eq_dec a b); congruence.
  - rewrite (append_at_absent (append_at g b a)).
    + rewrite append_at_absent by exact Hb. now rewrite <- app_assoc.
    + rewrite has_key_append_at. destruct (node_eq_dec b a); congruence.
Qed.

Lemma undirected_add_edge_swap g a b :
  a = b \/ has_key g a = true \/ has_key g b = true
    \/ pop_first a b = negb (pop_first b a) ->
  add_edge g (a, b) = add_edge g (b, a).
Proof.
  intros Hcase. unfold UndirectedGraph.add_edge.
  destruct (node_eq_dec a b) as [->|Hab].
  - destruct (node_eq_dec b b); congruence.
  - destruct (node_eq_dec b a) as [->|_]; [congruence|].
    destruct (pop_first a b) eqn:Eab, (pop_first b a) eqn:Eba; try reflexivity.
    + apply append_at_comm; [exact Hab|].
      destruct Hcase as [?|[?|[?|?]]];
        [contradiction | now left | now right | discriminate].
    + symmetry. apply append_at_comm; [exact Hab|].
      destruct Hcase as [?|[?|[?|?]]];
        [contradiction | now left | now right | discriminate].
Qed.

Lemma undirected_symmetric_step g o :
  symmetric g -> symmetric (UndirectedGraph.step pop_first g o).
Proof.
  intros Hs. destruct o as [e|n|n]; simpl.
  - now apply undirected_symmetric_add_edge.
  - intros p q. now rewrite !adj_add_node.
  - intros p q. now rewrite node_degree_snd, !adj_add_node.
Qed.

Lemma undirected_symmetric_new edges : symmetric (UndirectedGraph.new pop_first edges).
Proof.
  unfold UndirectedGraph.new, init.
  assert (Hgen : forall g : Graph Node, symmetric g -> symmetric (fold_left add_edge edges g)).
  { induction edges as [|e edges IH]; simpl; intros g Hg; [exact Hg|].
    apply IH. now apply undirected_symmetric_add_edge. }
  apply Hgen. intros p q. reflexivity.
Qed.

Lemma undirected_symmetric_run ops : forall g,
  symmetric g -> symmetric (UndirectedGraph.run pop_first g ops).
Proof.
  unfold UndirectedGraph.run.
  induction ops as [|o ops IH]; simpl; intros g Hg; [exact Hg|].
  apply IH. now apply undirected_symmetric_step.
Qed.

End Undirected.

(** *** DirectedGraph.add_edge *)

Lemma directed_adj_add_edge g a b m :
  adj (DirectedGraph.add_edge g (a, b)) m =
  if node_eq_dec a m then adj g a ++ [b] else adj g m.
Proof.
  unfold DirectedGraph.add_edge. simpl.
  rewrite adj_append_at, !adj_add_node. reflexivity.
Qed.

Lemma directed_has_key_add_edge g a b m :
  has_key (DirectedGraph.add_edge g (a, b)) m =
  if node_eq_dec a m then true else if node_eq_dec b m then true else has_key g m.
Proof.
  unfold DirectedGraph.add_edge. simpl.
  rewrite has_key_append_at, has_key_add_node. reflexivity.
Qed.

Lemma directed_NoDup_add_edge g e :
  NoDup (nodes g) -> NoDup (nodes (DirectedGraph.add_edge g e)).
Proof.
  intros Hnd. unfold DirectedGraph.add_edge.
  now apply NoDup_append_at, NoDup_add_node.
Qed.

Lemma directed_closed_add_edge g e :
  NoDup (nodes g) -> closed g = true -> closed (DirectedGraph.add_edge g e) = true.
Proof.
  intros Hnd Hc. destruct e as [a b].
  apply closed_iff; [now apply directed_NoDup_add_edge|].
  rewrite closed_iff in Hc by exact Hnd.
  intros k n. rewrite directed_adj_add_edge, directed_has_key_add_edge.
  destruct (node_eq_dec a k) as [->|Hak].
  - intros Hn. apply in_app_or in Hn. destruct Hn as [Hn|[<-|[]]].
    + apply Hc in Hn. rewrite Hn. case_nodes.
    + case_nodes.
  - intros Hn. apply Hc in Hn. rewrite Hn. case_nodes.
Qed.

End InsertionFacts.

(** ** Well-formed mappings

    A dict has each key once, and both [add_edge] methods register the
    endpoints they mention; every graph built through the interface
    therefore satisfies the two conditions below. *)

Section WellFormed.
Context {Node : Type} `{Hashable Node}.
Implicit Types (g : Graph Node) (n : Node).

Lemma closed_add_node g n :
  NoDup (nodes g) -> closed g = true -> closed (add_node g n) = true.
Proof.
  intros Hnd Hc. apply closed_iff; [now apply NoDup_add_node|].
  rewrite closed_iff in Hc by exact Hnd.
  intros k m. rewrite adj_add_node, has_key_add_node. intros Hm.
  apply Hc in Hm. rewrite Hm. now destruct (node_eq_dec n m).
Qed.

Lemma undirected_wf_run pop_first edges ops :
  let g := UndirectedGraph.run pop_first (UndirectedGraph.new pop_first edges) ops in
  NoDup (nodes g) /\ closed g = true.
Proof.
  unfold UndirectedGraph.run, UndirectedGraph.new, init.
  assert (Hnew : forall g, NoDup (nodes g) /\ closed g = true ->
            NoDup (nodes (fold_left (UndirectedGraph.add_edge pop_first) edges g)) /\
            closed (fold_left (UndirectedGraph.add_edge pop_first) edges g) = true).
  { induction edges as [|e edges IH]; simpl; intros g [Hnd Hc]; [now split|].
    apply IH. split; [now apply undirected_NoDup_add_edge
                     | now apply undirected_closed_add_edge]. }
  specialize (Hnew [] (conj (NoDup_nil Node) eq_refl)).
  revert Hnew. generalize (fold_left (UndirectedGraph.add_edge pop_first) edges []).
  induction ops as [|o ops IH]; simpl; intros g [Hnd Hc]; [now split|].
  apply IH. destruct o as [e|n|n]; simpl; rewrite ?node_degree_snd.
  - split; [now apply undirected_NoDup_add_edge | now apply undirected_closed_add_edge].
  - split; [now apply NoDup_add_node | now apply closed_add_node].
  - split; [now apply NoDup_add_node | now apply closed_add_node].
Qed.

Lemma directed_wf_new (edges : list (Node * Node)) :
  NoDup (nodes (DirectedGraph.new edges)) /\ closed (DirectedGraph.new edges) = true.
Proof.
  unfold DirectedGraph.new, init.
  assert (Hnew : forall g, NoDup (nodes g) /\ closed g = true ->
            NoDup (nodes (fold_left DirectedGraph.add_edge edges g)) /\
            closed (fold_left DirectedGraph.add_edge edges g) = true).
  { induction edges as [|e edges IH]; simpl; intros g [Hnd Hc]; [now split|].
    apply IH. split; [now apply directed_NoDup_add_edge
                     | now apply directed_closed_add_edge]. }
  apply Hnew. split; [constructor | reflexivity].
Qed.

End WellFormed.

(** * The specification's claims *)

Section Scenarios.
Local Open Scope string_scope.

(** C1. The docstring's graph, [UndirectedGraph([('a','b'), ('a','c'),
    ('c','c')])], has 3 nodes, [node_degree('c') = 3],
    [depth_first_search('b','c') = ['b','a','c']], [distance('a','b') = 1]
    and [diameter() = 2], whatever element the sets pop first.  The search
    takes the first unvisited neighbour and never comes back to try
    another one: from 'a' it walks into 'b', so 'c' is not found from 'a'
    although the two are adjacent. *)
Theorem undirected_scenario (pop_first : string -> string -> bool) :
  let graph := UndirectedGraph.new pop_first [("a", "b"); ("a", "c"); ("c", "c")] in
  __len__ graph = 3 /\
  fst (node_degree graph "c") = 3 /\
  depth_first_search graph "b" "c" = Some ["b"; "a"; "c"] /\
  depth_first_search graph "a" "c" = None /\
  distance graph "a" "b" = 1%Z /\
  diameter graph = inr 2%Z.
Proof.
  cbv [UndirectedGraph.new init fold_left UndirectedGraph.add_edge].
  destruct (pop_first "a" "b"), (pop_first "a" "c");
    vm_compute; repeat split; reflexivity.
Qed.

(** C2, as stated, fails when [end == start]: the function compares the
    two nodes before it looks the start node up. *)
Lemma absent_start_equal_end_is_found :
  ~ (forall (g : Graph string) (start_node end_node : string),
       has_key g start_node = false ->
       depth_first_search g start_node end_node = None /\
       distance g start_node end_node = (-1)%Z).
Proof.
  intros Hclaim. destruct (Hclaim [] "x" "x" eq_refl) as [Hdfs _].
  vm_compute in Hdfs. discriminate.
Qed.

End Scenarios.

Section Claims.
Context {Node : Type} `{Hashable Node}.
Implicit Types (g : Graph Node) (n s e x a b : Node).

(** C2 (amended).  When [start] is not a key and [end] differs from
    [start], [depth_first_search(start, end)] returns [None] and
    [distance] returns -1.  For [end == start] the search returns
    [[start]] and the distance is 0, whether or not [start] is a key. *)
Theorem dfs_absent_start g s e :
  (has_key g s = false -> s <> e ->
   depth_first_search g s e = None /\ distance g s e = (-1)%Z) /\
  (s = e -> depth_first_search g s e = Some [s] /\ distance g s e = 0%Z).
Proof.
  split.
  - intros Hk Hne. unfold distance. now rewrite depth_first_search_absent.
  - intros <-. unfold distance. now rewrite depth_first_search_same.
Qed.

(** C3.  In every undirected graph obtained from an edge list followed
    by any sequence of [add_edge], [add_node] and [node_degree] calls (the
    other queries do not touch the mapping), [b] occurs in the adjacency
    list of [a] as often as [a] occurs in that of [b]; each of these calls
    keeps that property; and [add_edge((a, a))] adds exactly one
    occurrence of [a] to the list of [a]. *)
Theorem undirected_symmetry (pop_first : Node -> Node -> bool) :
  (forall edges ops a b,
      let g := UndirectedGraph.run pop_first (UndirectedGraph.new pop_first edges) ops in
      count_occ node_eq_dec (adj g a) b = count_occ node_eq_dec (adj g b) a) /\
  (forall g o, symmetric g -> symmetric (UndirectedGraph.step pop_first g o)) /\
  (forall g a,
      count_occ node_eq_dec (adj (UndirectedGraph.add_edge pop_first g (a, a)) a) a
      = S (count_occ node_eq_dec (adj g a) a)).
Proof.
  split; [|split].
  - intros edges ops a b g. subst g.
    apply undirected_symmetric_run, undirected_symmetric_new.
  - intros g o. apply undirected_symmetric_step.
  - intros g a. rewrite undirected_adj_add_edge, count_occ_app.
    destruct (node_eq_dec a a) as [_|Hne]; [|congruence]. simpl.
    destruct (node_eq_dec a a); [lia | congruence].
Qed.

(** C4.  [add_edge((x, x))] on an undirected graph makes the adjacency
    list of [x] one entry longer and raises [node_degree(x)] by 2, also
    when the degree was first read on the graph (which registers [x]). *)
Theorem undirected_self_loop (pop_first : Node -> Node -> bool) g x :
  let g' := UndirectedGraph.add_edge pop_first g (x, x) in
  length (adj g' x) = S (length (adj g x)) /\
  fst (node_degree g' x) = fst (node_degree g x) + 2 /\
  fst (node_degree
         (UndirectedGraph.add_edge pop_first (snd (node_degree g x)) (x, x)) x)
  = fst (node_degree g x) + 2.
Proof.
  intros g'. subst g'.
  rewrite !node_degree_fst, node_degree_snd, !undirected_adj_add_edge, adj_add_node.
  destruct (node_eq_dec x x) as [_|Hne]; [|congruence].
  rewrite count_occ_app, length_app. simpl.
  destruct (node_eq_dec x x); [lia | congruence].
Qed.

(** C6.  [distance] is the number of edges of the path found by
    [depth_first_search], a path that starts at [start] and ends at
    [end], and is -1 when the search finds none; the distance from a node
    of the graph to itself is 0. *)
Theorem distance_spec g s e :
  match depth_first_search g s e with
  | Some p =>
      (exists q, p = s :: q) /\ (exists q, p = q ++ [e]) /\
      distance g s e = (Z.of_nat (length p) - 1)%Z /\
      distance g s e = Z.of_nat (length p - 1)
  | None => distance g s e = (-1)%Z
  end /\
  (In s (nodes g) -> distance g s s = 0%Z).
Proof.
  split.
  - unfold distance. destruct (depth_first_search g s e) as [p|] eqn:E; [|reflexivity].
    apply depth_first_search_path in E. destruct E as (Hh & Hl & _ & Hlen).
    repeat split; auto. lia.
  - intros _. unfold distance. now rewrite depth_first_search_same.
Qed.

(** C7.  On a graph with no node [delta] and [Delta] raise ([min] and
    [max] of an empty sequence); otherwise they return the least and the
    greatest [node_degree] of the graph's nodes, and computing those
    degrees leaves the graph as it is.  [min_degree] and [max_degree] are
    the same functions. *)
Theorem degree_extremes g :
  (nodes g = [] -> delta g = inl ValueError /\ Delta g = inl ValueError) /\
  (nodes g <> [] ->
   exists lo hi,
     delta g = inr lo /\ Delta g = inr hi /\
     (forall n, In n (nodes g) ->
        lo <= fst (node_degree g n) <= hi /\ snd (node_degree g n) = g) /\
     (exists n, In n (nodes g) /\ fst (node_degree g n) = lo) /\
     (exists n, In n (nodes g) /\ fst (node_degree g n) = hi)) /\
  min_degree g = delta g /\ max_degree g = Delta g.
Proof.
  split; [|split; [|split; reflexivity]].
  - unfold delta, Delta, degrees. intros ->. split; reflexivity.
  - intros Hne.
    assert (Hd : degrees g <> []).
    { unfold degrees. destruct (nodes g); [congruence | discriminate]. }
    destruct (py_min_spec _ Hd) as (lo & Hlo & Hlo_in & Hlo_le).
    destruct (py_max_spec _ Hd) as (hi & Hhi & Hhi_in & Hhi_ge).
    exists lo, hi. split; [exact Hlo|]. split; [exact Hhi|].
    unfold degrees in *. split; [|split].
    + intros n Hn. split.
      * split; [apply Hlo_le | apply Hhi_ge];
          now apply in_map with (f := fun node => fst (node_degree g node)).
      * rewrite node_degree_snd. now apply add_node_present, has_key_In.
    + apply in_map_iff in Hlo_in. destruct Hlo_in as (n & Hn & Hin). eauto.
    + apply in_map_iff in Hhi_in. destruct Hhi_in as (n & Hn & Hin). eauto.
Qed.

(** C8.  [isolated_nodes] returns, in the order of the mapping, exactly
    the nodes whose adjacency list is empty and that occur in no
    adjacency list; a node that has a self-loop is not among them; and
    [is_connected] is true iff the list is empty. *)
Theorem isolated_nodes_spec g :
  NoDup (nodes g) ->
  isolated_nodes g =
    filter (fun n => (length (adj g n) =? 0)
                     && negb (existsb (fun m => contains (adj g m) n) (nodes g)))
           (nodes g) /\
  (forall n, In n (isolated_nodes g) <->
             In n (nodes g) /\ adj g n = [] /\ forall m, ~ In n (adj g m)) /\
  (forall n, In n (adj g n) -> ~ In n (isolated_nodes g)) /\
  (is_connected g = true <-> isolated_nodes g = []).
Proof.
  intros Hnd.
  assert (Heq : isolated_nodes g =
    filter (fun n => (length (adj g n) =? 0)
                     && negb (existsb (fun m => contains (adj g m) n) (nodes g)))
           (nodes g)).
  { rewrite isolated_nodes_filter_items. apply filter_map_fst.
    intros [k v] Hkv. simpl.
    rewrite (@in_some_value_adj _ _ g k Hnd), adj_get, (@NoDup_get _ _ g k v Hnd Hkv).
    reflexivity. }
  assert (Hin : forall n, In n (isolated_nodes g) <->
             In n (nodes g) /\ adj g n = [] /\ forall m, ~ In n (adj g m)).
  { intros n. rewrite Heq, filter_In, andb_true_iff, negb_true_iff, Nat.eqb_eq.
    rewrite length_zero_iff_nil. split.
    - intros (Hn & Hadj & Hex). split; [exact Hn|]. split; [exact Hadj|].
      intros m Hm.
      assert (Hk : In m (nodes g)).
      { apply has_key_In. unfold has_key. rewrite adj_get in Hm.
        destruct (get g m); [reflexivity | contradiction]. }
      assert (Ht : existsb (fun m => contains (adj g m) n) (nodes g) = true).
      { apply existsb_exists. exists m. split; [exact Hk | now apply contains_In]. }
      congruence.
    - intros (Hn & Hadj & Hno). split; [exact Hn|]. split; [exact Hadj|].
      destruct (existsb (fun m => contains (adj g m) n) (nodes g)) eqn:Ex; [|reflexivity].
      apply existsb_exists in Ex. destruct Ex as (m & _ & Hc).
      apply contains_In in Hc. now apply Hno in Hc. }
  split; [exact Heq|]. split; [exact Hin|]. split.
  - intros n Hself Hiso. apply Hin in Hiso. destruct Hiso as (_ & _ & Hno).
    now apply (Hno n).
  - unfold is_connected. now rewrite Nat.eqb_eq, length_zero_iff_nil.
Qed.

(** C9.  [depth_first_search] returns on every graph and every pair of
    nodes: the accumulated path never repeats a node and consists of keys
    up to its last node, so [length (nodes g)] nested recursive calls
    under the initial one are always enough, and the initial call counts
    among the [length (nodes g)] when the search starts at a key of a
    graph whose adjacency lists only mention keys.  A returned path
    repeats no node and has at most one node more than the graph. *)
Theorem depth_first_search_terminates g s e :
  (forall fuel, length (nodes g) < fuel ->
     dfs_rec fuel g s e [] = Some (depth_first_search g s e)) /\
  (closed g = true -> In s (nodes g) ->
   forall fuel, length (nodes g) <= fuel ->
     dfs_rec fuel g s e [] = Some (depth_first_search g s e)) /\
  (forall p, depth_first_search g s e = Some p ->
     NoDup p /\ length p <= S (length (nodes g))).
Proof.
  split; [|split].
  - intros fuel. apply depth_first_search_fuel.
  - intros Hc Hs fuel Hle.
    assert (Hret : dfs_rec fuel g s e [] <> None).
    { apply dfs_rec_returns_closed; simpl; [exact Hc | repeat constructor; auto | | lia].
      intros x [<-|[]]. exact Hs. }
    destruct (dfs_rec fuel g s e []) as [r|] eqn:E; [|congruence].
    apply dfs_rec_more_fuel with (fuel' := S (Nat.max fuel (length (nodes g)))) in E; [|lia].
    rewrite depth_first_search_fuel in E by lia. congruence.
  - intros p Hp. apply depth_first_search_path in Hp. tauto.
Qed.

(** C10 (amended).  [add_edge((a, b))] and [add_edge((b, a))] on an
    undirected graph give every node the same adjacency list and the
    same set of keys.  The two graphs are identical, key order included,
    when [a = b], when [a] or [b] is already a key, or when the set pops
    the same node first for both orders of the pair.  When both
    endpoints are new, the keys are created in the order in which the
    set pops them: the popped node first, then the other one. *)
Theorem undirected_add_edge_endpoints (pop_first : Node -> Node -> bool) g a b :
  (forall m, get (UndirectedGraph.add_edge pop_first g (a, b)) m
             = get (UndirectedGraph.add_edge pop_first g (b, a)) m) /\
  Permutation (UndirectedGraph.add_edge pop_first g (a, b))
              (UndirectedGraph.add_edge pop_first g (b, a)) /\
  (a = b \/ has_key g a = true \/ has_key g b = true
     \/ pop_first a b = negb (pop_first b a) ->
   UndirectedGraph.add_edge pop_first g (a, b)
   = UndirectedGraph.add_edge pop_first g (b, a)) /\
  (a <> b -> has_key g a = false -> has_key g b = false ->
   UndirectedGraph.add_edge pop_first g (a, b)
   = g ++ (if pop_first a b then [(a, [b]); (b, [a])] else [(b, [a]); (a, [b])]) /\
   nodes (UndirectedGraph.add_edge pop_first g (a, b))
   = nodes g ++ (if pop_first a b then [a; b] else [b; a])).
Proof.
  split; [|split; [|split]].
  - intros m. rewrite !undirected_get_add_edge. case_nodes.
  - destruct (node_eq_dec a b) as [Hab|Hab];
      [rewrite undirected_add_edge_swap by tauto; apply Permutation_refl|].
    destruct (has_key g a) eqn:Ha;
      [rewrite undirected_add_edge_swap by tauto; apply Permutation_refl|].
    destruct (has_key g b) eqn:Hb;
      [rewrite undirected_add_edge_swap by tauto; apply Permutation_refl|].
    rewrite !undirected_add_edge_new by congruence.
    apply Permutation_app_head.
    destruct (pop_first a b), (pop_first b a);
      try apply Permutation_refl; apply perm_swap.
  - apply undirected_add_edge_swap.
  - intros Hab Ha Hb. rewrite undirected_add_edge_new by assumption.
    split; [reflexivity|]. unfold nodes. rewrite map_app.
    now destruct (pop_first a b).
Qed.

End Claims.

(** C5.  [DirectedGraph.add_edge((a, b))] with [a <> b] appends [b] to
    the adjacency list of [a], makes [a] and [b] keys, and leaves the
    list of [b] as it was (empty when [b] is new).  In particular
    [DirectedGraph([('a','b')])] has the nodes 'a' and 'b', 'b' has an
    empty adjacency list, and [distance('b','a') = -1]. *)
Theorem directed_add_edge_spec :
  (forall (Node : Type) (HN : Hashable Node) (g : Graph Node) (a b : Node),
      a <> b ->
      let g' := DirectedGraph.add_edge g (a, b) in
      adj g' a = adj g a ++ [b] /\
      In a (nodes g') /\ In b (nodes g') /\
      adj g' b = adj g b /\ get g' b = Some (adj g b)) /\
  (let d := DirectedGraph.new [("a", "b")]%string in
   In "a"%string (nodes d) /\ In "b"%string (nodes d) /\
   get d "b"%string = Some [] /\
   distance d "b"%string "a"%string = (-1)%Z).
Proof.
  split.
  - intros Node HN g a b Hab g'. subst g'.
    rewrite !directed_adj_add_edge, <- !has_key_In, !directed_has_key_add_edge.
    unfold DirectedGraph.add_edge. simpl. rewrite get_append_at, get_add_node.
    case_nodes. repeat split; reflexivity.
  - vm_compute. repeat split; auto.
Qed.

Section Witnesses.
Local Open Scope string_scope.

Lemma dfs_absent_start_witness :
  has_key docstring_graph "d" = false /\ "d" <> "a" /\
  (depth_first_search docstring_graph "d" "a" = None /\
   distance docstring_graph "d" "a" = (-1)%Z) /\
  (depth_first_search docstring_graph "a" "a" = Some ["a"] /\
   distance docstring_graph "a" "a" = 0%Z).
Proof.
  assert (Hk : has_key docstring_graph "d" = false) by reflexivity.
  assert (Hne : "d" <> "a") by discriminate.
  split; [exact Hk|]. split; [exact Hne|]. split.
  - exact (proj1 (dfs_absent_start docstring_graph "d" "a") Hk Hne).
  - exact (proj2 (dfs_absent_start docstring_graph "a" "a") eq_refl).
Defined.

Lemma undirected_symmetry_witness :
  symmetric ([] : Graph string) /\
  symmetric (UndirectedGraph.step pop_in_order [] (UndirectedGraph.AddEdge ("a", "b"))).
Proof.
  assert (Hs : symmetric ([] : Graph string)) by (intros a b; reflexivity).
  split; [exact Hs|].
  apply (proj1 (proj2 (undirected_symmetry pop_in_order))). exact Hs.
Defined.

Lemma directed_add_edge_spec_witness :
  "a" <> "b" /\
  adj (DirectedGraph.add_edge [] ("a", "b")) "a" = (adj [] "a" ++ ["b"])%list.
Proof.
  split; [discriminate|].
  apply (proj1 directed_add_edge_spec string _ [] "a" "b"). discriminate.
Defined.

Lemma distance_spec_witness :
  In "a" (nodes docstring_graph) /\ distance docstring_graph "a" "a" = 0%Z.
Proof.
  split; [simpl; auto|].
  apply (proj2 (distance_spec docstring_graph "a" "a")). simpl; auto.
Defined.

Lemma degree_extremes_witness :
  nodes docstring_graph <> [] /\
  exists lo hi,
    delta docstring_graph = inr lo /\ Delta docstring_graph = inr hi /\
    (forall n, In n (nodes docstring_graph) ->
       lo <= fst (node_degree docstring_graph n) <= hi /\
       snd (node_degree docstring_graph n) = docstring_graph) /\
    (exists n, In n (nodes docstring_graph) /\ fst (node_degree docstring_graph n) = lo) /\
    (exists n, In n (nodes docstring_graph) /\ fst (node_degree docstring_graph n) = hi).
Proof.
  split; [discriminate|].
  apply (proj1 (proj2 (degree_extremes docstring_graph))). discriminate.
Defined.

Lemma isolated_nodes_spec_witness :
  NoDup (nodes (add_node docstring_graph "d")) /\
  isolated_nodes (add_node docstring_graph "d") = ["d"].
Proof.
  assert (Hnd : NoDup (nodes (add_node docstring_graph "d"))).
  { simpl. repeat (constructor; [simpl; intuition discriminate|]). constructor. }
  split; [exact Hnd|].
  rewrite (proj1 (isolated_nodes_spec _ Hnd)). reflexivity.
Defined.

Lemma depth_first_search_terminates_witness :
  closed docstring_graph = true /\ In "b" (nodes docstring_graph) /\
  length (nodes docstring_graph) <= 3 /\
  dfs_rec 3 docstring_graph "b" "c" []
  = Some (depth_first_search docstring_graph "b" "c").
Proof.
  split; [reflexivity|]. split; [simpl; auto|]. split; [simpl; lia|].
  apply (proj1 (proj2 (depth_first_search_terminates docstring_graph "b" "c")));
    [reflexivity | simpl; auto | simpl; lia].
Defined.

Lemma undirected_add_edge_endpoints_witness :
  (has_key docstring_graph "a" = true /\
   UndirectedGraph.add_edge pop_in_order docstring_graph ("a", "z")
   = UndirectedGraph.add_edge pop_in_order docstring_graph ("z", "a")) /\
  ("y" <> "z" /\ has_key docstring_graph "y" = false /\
   has_key docstring_graph "z" = false /\
   nodes (UndirectedGraph.add_edge pop_in_order docstring_graph ("y", "z"))
   = (nodes docstring_graph ++ ["y"; "z"])%list /\
   nodes (UndirectedGraph.add_edge pop_in_order docstring_graph ("z", "y"))
   = (nodes docstring_graph ++ ["z"; "y"])%list).
Proof.
  assert (Hy : has_key docstring_graph "y" = false) by reflexivity.
  assert (Hz : has_key docstring_graph "z" = false) by reflexivity.
  assert (Hyz : "y" <> "z") by discriminate.
  assert (Hzy : "z" <> "y") by discriminate.
  split.
  - split; [reflexivity|].
    apply (proj1 (proj2 (proj2
      (undirected_add_edge_endpoints pop_in_order docstring_graph "a" "z")))).
    right; left; reflexivity.
  - split; [exact Hyz|]. split; [exact Hy|]. split; [exact Hz|]. split.
    + exact (proj2 (proj2 (proj2 (proj2
        (undirected_add_edge_endpoints pop_in_order docstring_graph "y" "z")))
        Hyz Hy Hz)).
    + exact (proj2 (proj2 (proj2 (proj2
        (undirected_add_edge_endpoints pop_in_order docstring_graph "z" "y")))
        Hzy Hz Hy)).
Defined.

End Witnesses.

(** C10, as stated, fails on key order: with both endpoints new, the
    keys are created in the order in which the set pops them, and
    CPython's set of two ints that share a slot pops the one that was
    inserted first. *)
Lemma undirected_add_edge_key_order :
  nodes (UndirectedGraph.add_edge cpython_pop_first [] (0, 8)) = [0; 8] /\
  nodes (UndirectedGraph.add_edge cpython_pop_first [] (8, 0)) = [8; 0] /\
  UndirectedGraph.add_edge cpython_pop_first [] (0, 8)
  <> UndirectedGraph.add_edge cpython_pop_first [] (8, 0).
Proof.
  split; [reflexivity|]. split; [reflexivity|]. vm_compute. discriminate.
Qed.

(** * Further properties of the module *)

(** ** The [edges] property *)

Section EdgeListFacts.
Context {Node : Type} `{Hashable Node}.
Implicit Types (g : Graph Node) (n m x a b : Node).

Lemma edges_app g1 g2 : edges (g1 ++ g2) = edges g1 ++ edges g2.
Proof. unfold edges. apply flat_map_app. Qed.

Lemma edges_add_node g n : edges (add_node g n) = edges g.
Proof.
  unfold add_node, getitem. destruct (get g n); simpl; [reflexivity|].
  rewrite edges_app. simpl. now rewrite app_nil_r.
Qed.

Lemma edges_append_at g n x :
  Permutation (edges (append_at g n x)) ((n, x) :: edges g).
Proof.
  induction g as [|[k v] g IH]; simpl.
  - apply Permutation_refl.
  - destruct (node_eq_dec k n) as [->|Hkn]; simpl.
    + rewrite map_app. simpl. rewrite <- app_assoc. simpl.
      symmetry. apply Permutation_middle.
    + apply Permutation_trans
        with (map (fun edge => (k, edge)) v ++ (n, x) :: edges g).
      * apply Permutation_app_head. exact IH.
      * symmetry. apply Permutation_middle.
Qed.

Lemma directed_edges_add_edge g e :
  Permutation (edges (DirectedGraph.add_edge g e)) (e :: edges g).
Proof.
  destruct e as [a b]. unfold DirectedGraph.add_edge. simpl.
  rewrite <- (edges_add_node g b). apply edges_append_at.
Qed.

Lemma undirected_edges_add_edge pop_first g a b :
  Permutation (edges (UndirectedGraph.add_edge pop_first g (a, b)))
              ((if node_eq_dec a b then [(a, b)] else [(a, b); (b, a)]) ++ edges g).
Proof.
  unfold UndirectedGraph.add_edge.
  destruct (node_eq_dec a b) as [->|Hab]; simpl.
  - apply edges_append_at.
  - destruct (pop_first a b).
    + eapply Permutation_trans; [apply edges_append_at|].
      eapply Permutation_trans; [|apply perm_swap].
      apply perm_skip. apply edges_append_at.
    + eapply Permutation_trans; [apply edges_append_at|].
      apply perm_skip. apply edges_append_at.
Qed.

(** X1.  The [edges] property of a directed graph built from an edge
    list returns exactly the inserted pairs, each as often as it was
    given (in mapping-then-list order, hence up to a rearrangement);
    and each later [add_edge] adds exactly its pair. *)
Theorem directed_edges_roundtrip (es : list (Node * Node)) :
  Permutation (edges (DirectedGraph.new es)) es /\
  length (edges (DirectedGraph.new es)) = length es /\
  forall g e, Permutation (edges (DirectedGraph.add_edge g e)) (e :: edges g).
Proof.
  assert (Hgen : forall g : Graph Node,
             Permutation (edges (fold_left DirectedGraph.add_edge es g)) (edges g ++ es)).
  { induction es as [|e es IH]; intros g; simpl.
    - now rewrite app_nil_r.
    - eapply Permutation_trans; [apply IH|].
      eapply Permutation_trans;
        [apply Permutation_app_tail, directed_edges_add_edge|].
      simpl. apply Permutation_middle. }
  assert (Hp : Permutation (edges (DirectedGraph.new es)) es) by apply (Hgen []).
  split; [exact Hp|]. split; [now apply Permutation_length|].
  intros g e. apply directed_edges_add_edge.
Qed.

(** X2.  The [edges] property of an undirected graph built from an edge
    list lists every inserted pair with distinct endpoints in both
    directions and every self-loop once; so [(a, b)] is listed exactly
    when [(b, a)] is. *)
Theorem undirected_edges_both_directions (pop_first : Node -> Node -> bool)
    (es : list (Node * Node)) :
  Permutation
    (edges (UndirectedGraph.new pop_first es))
    (flat_map (fun e => if node_eq_dec (fst e) (snd e) then [e]
                        else [e; (snd e, fst e)]) es) /\
  forall a b, In (a, b) (edges (UndirectedGraph.new pop_first es)) <->
              In (b, a) (edges (UndirectedGraph.new pop_first es)).
Proof.
  set (both := fun e : Node * Node =>
                 if node_eq_dec (fst e) (snd e) then [e] else [e; (snd e, fst e)]).
  assert (Hgen : forall g : Graph Node,
             Permutation (edges (fold_left (UndirectedGraph.add_edge pop_first) es g))
                         (edges g ++ flat_map both es)).
  { induction es as [|[a b] es IH]; intros g; simpl.
    - now rewrite app_nil_r.
    - eapply Permutation_trans; [apply IH|].
      eapply Permutation_trans;
        [apply Permutation_app_tail, undirected_edges_add_edge|].
      rewrite (app_assoc (edges g)).
      apply Permutation_app_tail, Permutation_app_comm. }
  assert (Hp : Permutation (edges (UndirectedGraph.new pop_first es)) (flat_map both es))
    by apply (Hgen []).
  split; [exact Hp|].
  assert (Hsym : forall a b, In (a, b) (flat_map both es) -> In (b, a) (flat_map both es)).
  { intros a b Hin. apply in_flat_map in Hin. destruct Hin as ([c d] & Hcd & Hin).
    apply in_flat_map. exists (c, d). split; [exact Hcd|].
    unfold both in *. simpl in *.
    destruct (node_eq_dec c d) as [->|Hne]; simpl in *.
    - destruct Hin as [E|[]]. injection E as <- <-. now left.
    - destruct Hin as [E|[E|[]]]; injection E as <- <-; auto. }
  intros a b. split; intros Hin.
  - apply (Permutation_in _ (Permutation_sym Hp)), Hsym, (Permutation_in _ Hp), Hin.
  - apply (Permutation_in _ (Permutation_sym Hp)), Hsym, (Permutation_in _ Hp), Hin.
Qed.

End EdgeListFacts.

(** ** Graphs built from an edge list *)

Section ConstructionFacts.
Context {Node : Type} `{Hashable Node}.
Implicit Types (g : Graph Node) (n m a b : Node) (es : list (Node * Node)).

Lemma undirected_adj_fold pop_first es : forall g n,
  adj (fold_left (UndirectedGraph.add_edge pop_first) es g) n =
  adj g n ++ flat_map (fun e => if node_eq_dec (fst e) n then [snd e]
                                else if node_eq_dec (snd e) n then [fst e]
                                else []) es.
Proof.
  induction es as [|[a b] es IH]; intros g n; cbn [fold_left flat_map fst snd].
  - now rewrite app_nil_r.
  - now rewrite IH, undirected_adj_add_edge, <- app_assoc.
Qed.

Lemma directed_adj_fold es : forall g n,
  adj (fold_left DirectedGraph.add_edge es g) n =
  adj g n ++ map snd (filter (fun e => if node_eq_dec (fst e) n then true else false) es).
Proof.
  induction es as [|[a b] es IH]; intros g n; cbn [fold_left filter map fst snd].
  - now rewrite app_nil_r.
  - rewrite IH, directed_adj_add_edge.
    destruct (node_eq_dec a n) as [->|Hne]; cbn [map snd]; [|reflexivity].
    now rewrite <- app_assoc.
Qed.

(** Both [add_edge] methods register exactly their two endpoints. *)
Lemma has_key_fold (add_edge : Graph Node -> Node * Node -> Graph Node) :
  (forall g a b m, has_key (add_edge g (a, b)) m =
                   if node_eq_dec a m then true
                   else if node_eq_dec b m then true else has_key g m) ->
  forall es g n,
    has_key (fold_left add_edge es g) n = true <->
    has_key g n = true \/ In n (endpoints es).
Proof.
  intros Hadd. induction es as [|[a b] es IH]; intros g n;
    cbn [fold_left endpoints flat_map fst snd app In].
  - tauto.
  - rewrite IH, Hadd.
    destruct (node_eq_dec a n) as [->|Han]; [tauto|].
    destruct (node_eq_dec b n) as [->|Hbn]; [tauto|].
    split; [tauto|]. intros [Hk|[E|[E|Hin]]]; try contradiction; tauto.
Qed.

Lemma nodes_count_distinct g es :
  NoDup (nodes g) -> (forall n, In n (nodes g) <-> In n (endpoints es)) ->
  __len__ g = length (nodup node_eq_dec (endpoints es)).
Proof.
  intros Hnd Hin. unfold __len__.
  rewrite <- (length_map fst g). fold (nodes g).
  apply Permutation_length, NoDup_Permutation;
    [exact Hnd | apply NoDup_nodup |].
  intros n. now rewrite nodup_In.
Qed.

Lemma undirected_new_NoDup pop_first es :
  NoDup (nodes (UndirectedGraph.new pop_first es)).
Proof. apply (undirected_wf_run pop_first es []). Qed.

Lemma undirected_new_nodes pop_first es n :
  In n (nodes (UndirectedGraph.new pop_first es)) <-> In n (endpoints es).
Proof.
  rewrite <- has_key_In. unfold UndirectedGraph.new, init.
  rewrite (has_key_fold _ (undirected_has_key_add_edge pop_first)).
  split; [intros [Hk|Hin]; [discriminate | exact Hin] | tauto].
Qed.

Lemma directed_new_nodes es n :
  In n (nodes (DirectedGraph.new es)) <-> In n (endpoints es).
Proof.
  rewrite <- has_key_In. unfold DirectedGraph.new, init.
  rewrite (has_key_fold _ directed_has_key_add_edge).
  split; [intros [Hk|Hin]; [discriminate | exact Hin] | tauto].
Qed.

Lemma undirected_adj_fold_new pop_first es n :
  adj (UndirectedGraph.new pop_first es) n =
  flat_map (fun e => if node_eq_dec (fst e) n then [snd e]
                     else if node_eq_dec (snd e) n then [fst e]
                     else []) es.
Proof. unfold UndirectedGraph.new, init. now rewrite undirected_adj_fold. Qed.

Lemma directed_adj_fold_new es n :
  adj (DirectedGraph.new es) n =
  map snd (filter (fun e => if node_eq_dec (fst e) n then true else false) es).
Proof. unfold DirectedGraph.new, init. now rewrite directed_adj_fold. Qed.

(** X3.  In an undirected graph built from an edge list, the adjacency
    list of a node holds, in insertion order and with repetitions, the
    other endpoint of every edge that mentions the node (a self-loop
    contributes the node once); this does not depend on what the sets
    pop first. *)
Theorem undirected_adjacency_of_new (pop_first : Node -> Node -> bool) es n :
  adj (UndirectedGraph.new pop_first es) n =
  flat_map (fun e => if node_eq_dec (fst e) n then [snd e]
                     else if node_eq_dec (snd e) n then [fst e]
                     else []) es.
Proof. apply undirected_adj_fold_new. Qed.

(** X4.  In a directed graph built from an edge list, the adjacency list
    of a node is the list of targets of the edges that leave it, in
    insertion order and with repetitions. *)
Theorem directed_adjacency_of_new es n :
  adj (DirectedGraph.new es) n =
  map snd (filter (fun e => if node_eq_dec (fst e) n then true else false) es).
Proof. apply directed_adj_fold_new. Qed.

(** X5.  The nodes of an undirected graph built from an edge list are
    exactly the endpoints of its edges, each once: [len(g)] is the
    number of distinct endpoints. *)
Theorem undirected_nodes_of_new (pop_first : Node -> Node -> bool) es :
  (forall n, In n (nodes (UndirectedGraph.new pop_first es)) <-> In n (endpoints es)) /\
  NoDup (nodes (UndirectedGraph.new pop_first es)) /\
  __len__ (UndirectedGraph.new pop_first es)
  = length (nodup node_eq_dec (endpoints es)).
Proof.
  split; [apply undirected_new_nodes|]. split; [apply undirected_new_NoDup|].
  apply nodes_count_distinct;
    [apply undirected_new_NoDup | apply undirected_new_nodes].
Qed.

(** X6.  The nodes of a directed graph built from an edge list are
    exactly the endpoints of its edges (sources and targets), each
    once: [len(g)] is the number of distinct endpoints. *)
Theorem directed_nodes_of_new es :
  (forall n, In n (nodes (DirectedGraph.new es)) <-> In n (endpoints es)) /\
  NoDup (nodes (DirectedGraph.new es)) /\
  __len__ (DirectedGraph.new es) = length (nodup node_eq_dec (endpoints es)).
Proof.
  split; [apply directed_new_nodes|].
  split; [apply (proj1 (directed_wf_new es))|].
  apply nodes_count_distinct;
    [apply (proj1 (directed_wf_new es)) | apply directed_new_nodes].
Qed.

End ConstructionFacts.

(** ** Registering nodes and isolation *)

Section IsolationFacts.
Context {Node : Type} `{Hashable Node}.
Implicit Types (g : Graph Node) (n m a b : Node) (es : list (Node * Node)).

(** What membership in the result of [isolated_nodes] entails. *)
Lemma isolated_nodes_In g n :
  NoDup (nodes g) -> In n (isolated_nodes g) ->
  In n (nodes g) /\ adj g n = [] /\ forall m, ~ In n (adj g m).
Proof.
  intros Hnd Hin. rewrite isolated_nodes_filter_items in Hin.
  apply in_map_iff in Hin. destruct Hin as ([k v] & <- & Hf). simpl.
  apply filter_In in Hf. destruct Hf as (Hkv & Hp). simpl in Hp.
  apply andb_true_iff in Hp. destruct Hp as (Hlen & Hno).
  apply Nat.eqb_eq, length_zero_iff_nil in Hlen. subst v.
  apply negb_true_iff in Hno.
  split; [change k with (fst (k, @nil Node)); now apply in_map|].
  split; [now rewrite adj_get, (@NoDup_get _ _ g k [] Hnd Hkv)|].
  intros m Hm. rewrite adj_get in Hm.
  destruct (get g m) as [w|] eqn:E; [|contradiction].
  apply get_Some_In in E.
  assert (Ht : in_some_value (map snd g) k = true).
  { apply in_some_value_true. exists w. split; [|exact Hm].
    change w with (snd (m, w)). now apply in_map. }
  congruence.
Qed.

Lemma in_some_value_app (vs ws : list (list Node)) n :
  in_some_value (vs ++ ws) n = in_some_value vs n || in_some_value ws n.
Proof.
  induction vs as [|v vs IH]; simpl; [reflexivity|].
  destruct (contains v n); [reflexivity | exact IH].
Qed.

Lemma isolated_nodes_register g n :
  unmentioned g n = true ->
  isolated_nodes (add_node g n) = isolated_nodes g ++ [n].
Proof.
  unfold unmentioned. rewrite andb_true_iff, !negb_true_iff. intros [Hk Hv].
  unfold add_node, getitem. apply get_None_has_key in Hk. rewrite Hk. simpl.
  rewrite !isolated_nodes_filter_items, map_app, filter_app, map_app. simpl.
  rewrite in_some_value_app, Hv. simpl. f_equal. f_equal.
  apply filter_ext. intros [k v]. simpl.
  rewrite in_some_value_app. simpl. now rewrite orb_false_r.
Qed.

(** X7.  [add_node] is idempotent, never changes an adjacency list, and
    adds at most one key; on a node that is no key and that no
    adjacency list mentions, it appends the node to [isolated_nodes()],
    so that [is_connected()] is false afterwards. *)
Theorem add_node_effect g n :
  add_node (add_node g n) n = add_node g n /\
  (forall m, adj (add_node g n) m = adj g m) /\
  __len__ (add_node g n) = __len__ g + (if has_key g n then 0 else 1) /\
  (unmentioned g n = true ->
   isolated_nodes (add_node g n) = isolated_nodes g ++ [n] /\
   is_connected (add_node g n) = false).
Proof.
  split; [|split; [|split]].
  - apply add_node_present. rewrite has_key_add_node.
    destruct (node_eq_dec n n); congruence.
  - intros m. apply adj_add_node.
  - unfold __len__, add_node, getitem, has_key.
    destruct (get g n); simpl; [lia|]. rewrite length_app. simpl. lia.
  - intros Hun. split; [now apply isolated_nodes_register|].
    unfold is_connected. rewrite isolated_nodes_register by exact Hun.
    rewrite length_app. simpl. apply Nat.eqb_neq. lia.
Qed.

(** X8.  [node_degree] of a node that is not a key returns 0 and, as a
    side effect of the defaultdict, registers the node at the end of the
    mapping; when no adjacency list mentions the node, the graph is
    reported as not connected from then on.  On a key the call leaves
    the graph unchanged. *)
Theorem node_degree_side_effect g n :
  (has_key g n = true -> snd (node_degree g n) = g) /\
  (has_key g n = false ->
   fst (node_degree g n) = 0 /\
   snd (node_degree g n) = g ++ [(n, [])] /\
   node_degree (snd (node_degree g n)) n = (0, snd (node_degree g n))) /\
  (unmentioned g n = true -> is_connected (snd (node_degree g n)) = false).
Proof.
  split; [|split].
  - intros Hk. rewrite node_degree_snd. now apply add_node_present.
  - intros Hk. apply get_None_has_key in Hk.
    unfold node_degree, getitem. rewrite Hk. simpl.
    rewrite (get_app_absent g n [] Hk). simpl. auto.
  - intros Hun. rewrite node_degree_snd. unfold is_connected.
    rewrite isolated_nodes_register by exact Hun.
    rewrite length_app. simpl. apply Nat.eqb_neq. lia.
Qed.

(** X9.  After [add_edge((a, b))], on either kind of graph, neither
    endpoint is reported by [isolated_nodes()]. *)
Theorem add_edge_connects (pop_first : Node -> Node -> bool) g a b :
  NoDup (nodes g) ->
  (~ In a (isolated_nodes (UndirectedGraph.add_edge pop_first g (a, b))) /\
   ~ In b (isolated_nodes (UndirectedGraph.add_edge pop_first g (a, b)))) /\
  (~ In a (isolated_nodes (DirectedGraph.add_edge g (a, b))) /\
   ~ In b (isolated_nodes (DirectedGraph.add_edge g (a, b)))).
Proof.
  intros Hnd.
  assert (Hu := undirected_NoDup_add_edge pop_first g (a, b) Hnd).
  assert (Hd := directed_NoDup_add_edge g (a, b) Hnd).
  split; split; intros Hin.
  - apply (isolated_nodes_In _ _ Hu) in Hin. destruct Hin as (_ & Hadj & _).
    rewrite undirected_adj_add_edge in Hadj.
    destruct (node_eq_dec a a); [|congruence].
    now apply app_eq_nil in Hadj.
  - apply (isolated_nodes_In _ _ Hu) in Hin. destruct Hin as (_ & Hadj & _).
    rewrite undirected_adj_add_edge in Hadj.
    destruct (node_eq_dec a b); [now apply app_eq_nil in Hadj|].
    destruct (node_eq_dec b b); [|congruence].
    now apply app_eq_nil in Hadj.
  - apply (isolated_nodes_In _ _ Hd) in Hin. destruct Hin as (_ & Hadj & _).
    rewrite directed_adj_add_edge in Hadj.
    destruct (node_eq_dec a a); [|congruence].
    now apply app_eq_nil in Hadj.
  - apply (isolated_nodes_In _ _ Hd) in Hin. destruct Hin as (_ & _ & Hno).
    apply (Hno a). rewrite directed_adj_add_edge.
    destruct (node_eq_dec a a); [|congruence].
    apply in_or_app. right. now left.
Qed.

(** X10.  A graph built from an edge list alone is always reported as
    connected, whatever its edges: every node then has a neighbour or is
    somebody's neighbour, and [is_connected] looks at nothing else. *)
Theorem new_graph_is_connected (pop_first : Node -> Node -> bool) es :
  is_connected (UndirectedGraph.new pop_first es) = true /\
  is_connected (DirectedGraph.new es) = true.
Proof.
  unfold is_connected. split; apply Nat.eqb_eq, length_zero_iff_nil.
  - destruct (isolated_nodes (UndirectedGraph.new pop_first es)) as [|n l] eqn:E;
      [reflexivity|]. exfalso.
    assert (Hin : In n (isolated_nodes (UndirectedGraph.new pop_first es)))
      by (rewrite E; now left).
    apply (isolated_nodes_In _ _ (undirected_new_NoDup pop_first es)) in Hin.
    destruct Hin as (Hn & Hadj & _).
    apply undirected_new_nodes in Hn. unfold endpoints in Hn.
    apply in_flat_map in Hn. destruct Hn as ([a b] & Hab & Hn).
    rewrite undirected_adj_fold_new in Hadj.
    assert (Hne : forall x, ~ In x (@nil Node)) by (intros x []).
    rewrite <- Hadj in Hne. simpl in Hn.
    destruct Hn as [<-|[<-|[]]].
    + apply (Hne b). apply in_flat_map. exists (a, b). split; [exact Hab|].
      simpl. destruct (node_eq_dec a a); [now left | congruence].
    + apply (Hne a). apply in_flat_map. exists (a, b). split; [exact Hab|].
      simpl. destruct (node_eq_dec a b) as [->|Hd]; [now left|].
      destruct (node_eq_dec b b); [now left | congruence].
  - destruct (isolated_nodes (DirectedGraph.new es)) as [|n l] eqn:E;
      [reflexivity|]. exfalso.
    assert (Hin : In n (isolated_nodes (DirectedGraph.new es)))
      by (rewrite E; now left).
    apply (isolated_nodes_In _ _ (proj1 (directed_wf_new es))) in Hin.
    destruct Hin as (Hn & Hadj & Hno).
    apply directed_new_nodes in Hn. unfold endpoints in Hn.
    apply in_flat_map in Hn. destruct Hn as ([a b] & Hab & Hn).
    assert (Hb : In b (adj (DirectedGraph.new es) a)).
    { rewrite directed_adj_fold_new. apply in_map_iff. exists (a, b).
      split; [reflexivity|]. apply filter_In. split; [exact Hab|].
      simpl. destruct (node_eq_dec a a); congruence. }
    simpl in Hn. destruct Hn as [<-|[<-|[]]].
    + rewrite Hadj in Hb. contradiction.
    + now apply (Hno a).
Qed.

End IsolationFacts.

(** ** Growth *)

Section GrowthFacts.
Context {Node : Type} `{Hashable Node}.
Implicit Types (g : Graph Node) (n m a b : Node).

Lemma extends_refl g : extends g g.
Proof.
  split; [exists []; now rewrite app_nil_r|].
  intros n. exists []. now rewrite app_nil_r.
Qed.

Lemma extends_trans g1 g2 g3 : extends g3 g2 -> extends g2 g1 -> extends g3 g1.
Proof.
  intros [[ks Hk] Ha] [[ks' Hk'] Ha']. split.
  - exists (ks' ++ ks). now rewrite Hk, Hk', app_assoc.
  - intros n. destruct (Ha n) as [l Hl]. destruct (Ha' n) as [l' Hl'].
    exists (l' ++ l). now rewrite Hl, Hl', app_assoc.
Qed.

Lemma extends_append_at g n x : extends (append_at g n x) g.
Proof.
  split.
  - rewrite nodes_append_at. destruct (has_key g n);
      [exists []; now rewrite app_nil_r | now exists [n]].
  - intros m. rewrite adj_append_at.
    destruct (node_eq_dec n m) as [->|Hne];
      [now exists [x] | exists []; now rewrite app_nil_r].
Qed.

Lemma extends_add_node g n : extends (add_node g n) g.
Proof.
  split.
  - rewrite nodes_add_node. destruct (has_key g n);
      [exists []; now rewrite app_nil_r | now exists [n]].
  - intros m. rewrite adj_add_node. exists []. now rewrite app_nil_r.
Qed.

Lemma extends_undirected_add_edge pop_first g e :
  extends (UndirectedGraph.add_edge pop_first g e) g.
Proof.
  destruct e as [a b]. unfold UndirectedGraph.add_edge.
  destruct (node_eq_dec a b); [apply extends_append_at|].
  destruct (pop_first a b);
    (eapply extends_trans; [apply extends_append_at | apply extends_append_at]).
Qed.

Lemma extends_directed_add_edge g e : extends (DirectedGraph.add_edge g e) g.
Proof.
  unfold DirectedGraph.add_edge.
  eapply extends_trans; [apply extends_append_at | apply extends_add_node].
Qed.

(** X11.  Nothing is ever removed or reordered: after any sequence of
    [add_edge], [add_node] and [node_degree] calls on an undirected
    graph, and after any sequence of [add_edge] calls or an [add_node]
    on a directed graph, the old keys come first in their old order and
    every adjacency list starts with its old content. *)
Theorem graph_only_grows (pop_first : Node -> Node -> bool) g :
  (forall ops, extends (UndirectedGraph.run pop_first g ops) g) /\
  (forall es, extends (fold_left DirectedGraph.add_edge es g) g) /\
  (forall n, extends (add_node g n) g).
Proof.
  split; [|split].
  - intros ops. revert g. unfold UndirectedGraph.run.
    induction ops as [|o ops IH]; intros g; simpl; [apply extends_refl|].
    eapply extends_trans; [apply IH|].
    destruct o as [e|n|n]; simpl; rewrite ?node_degree_snd;
      [apply extends_undirected_add_edge | apply extends_add_node
       | apply extends_add_node].
  - intros es. revert g.
    induction es as [|e es IH]; intros g; simpl; [apply extends_refl|].
    eapply extends_trans; [apply IH | apply extends_directed_add_edge].
  - apply extends_add_node.
Qed.

End GrowthFacts.

(** ** What the search returns *)

Section PathFacts.
Context {Node : Type} `{Hashable Node}.
Implicit Types (g : Graph Node) (n s e : Node) (path p : list Node).

Lemma dfs_rec_walk fuel : forall g s e path p,
  dfs_rec fuel g s e path = Some (Some p) ->
  exists q, p = path ++ s :: q /\ walk g (s :: q) = true.
Proof.
  induction fuel as [|fuel IH]; intros g s e path p Hr; simpl in Hr.
  - discriminate.
  - destruct (node_eq_dec s e) as [->|Hne].
    + injection Hr as <-. now exists [].
    + destruct (negb (has_key g s)); [discriminate|].
      destruct (first_unvisited (adj g s) (path ++ [s])) as [n|] eqn:Hf; [|discriminate].
      apply first_unvisited_Some in Hf. destruct Hf as [Hadj _].
      apply IH in Hr. destruct Hr as (q & -> & Hw).
      exists (n :: q). split; [now rewrite <- app_assoc|].
      change (walk g (s :: n :: q)) with (contains (adj g s) n && walk g (n :: q)).
      rewrite Hw, andb_true_r. now apply contains_In.
Qed.

Lemma depth_first_search_keys g s e p :
  depth_first_search g s e = Some p ->
  exists q, p = q ++ [e] /\ incl q (nodes g).
Proof.
  unfold depth_first_search.
  destruct (dfs_rec (S (length (nodes g))) g s e []) as [r|] eqn:E; [|discriminate].
  intros ->. apply dfs_rec_path in E. destruct E as (_ & (q & -> & Hincl) & _).
  exists q. split; [reflexivity|]. apply Hincl. intros x [].
Qed.

(** X12.  A path returned by [depth_first_search] really is a path of
    the graph: each of its nodes is in the adjacency list of the node
    before it, and every node on it except possibly the last is a key. *)
Theorem depth_first_search_sound g s e p :
  depth_first_search g s e = Some p ->
  walk g p = true /\ exists q, p = q ++ [e] /\ incl q (nodes g).
Proof.
  intros Hp. split; [|now apply depth_first_search_keys with s].
  unfold depth_first_search in Hp.
  destruct (dfs_rec (S (length (nodes g))) g s e []) as [r|] eqn:E; [|discriminate].
  subst r. apply dfs_rec_walk in E. destruct E as (q & -> & Hw). exact Hw.
Qed.

(** X13.  [distance] lies between -1 and the number of nodes, and it is
    0 exactly when the two nodes are equal. *)
Theorem distance_range g s e :
  (-1 <= distance g s e <= Z.of_nat (length (nodes g)))%Z /\
  (distance g s e = 0%Z <-> s = e).
Proof.
  unfold distance. split.
  - destruct (depth_first_search g s e) as [p|] eqn:E; cbv beta iota; [|lia].
    apply depth_first_search_path in E. destruct E as (_ & _ & _ & Hlen). lia.
  - split.
    + destruct (depth_first_search g s e) as [p|] eqn:E; [|discriminate].
      apply depth_first_search_path in E.
      destruct E as ((q & ->) & (q' & Hq') & _ & _). intros Hlen.
      destruct q as [|x q]; [|cbn [length] in Hlen; lia].
      destruct q' as [|y q']; [now injection Hq' | ].
      destruct q'; discriminate.
    + intros <-. now rewrite depth_first_search_same.
Qed.

End PathFacts.

(** ** Diameter *)

Lemma py_max_fold_Z (xs : list Z) : forall x,
  let m := fold_left (fun best y => if (best <? y)%Z then y else best) xs x in
  (x <= m)%Z /\ (forall y, In y xs -> (y <= m)%Z) /\ (m = x \/ In m xs).
Proof.
  induction xs as [|a xs IH]; intros x; simpl.
  - repeat split; auto; [lia | intros y []].
  - destruct (IH (if (x <? a)%Z then a else x)) as (H1 & H2 & H3).
    destruct (x <? a)%Z eqn:E; [apply Z.ltb_lt in E | apply Z.ltb_ge in E].
    + repeat split; [lia | | destruct H3 as [H3|H3]; [rewrite H3|]; auto].
      intros y [<-|Hy]; [exact H1 | now apply H2].
    + repeat split; [lia | | destruct H3 as [H3|H3]; [rewrite H3|]; auto].
      intros y [<-|Hy]; [lia | now apply H2].
Qed.

Lemma py_max_spec_Z (xs : list Z) :
  xs <> [] ->
  exists m, py_max Z.ltb xs = inr m /\ In m xs /\ forall y, In y xs -> (y <= m)%Z.
Proof.
  destruct xs as [|x xs]; [congruence|]. intros _. simpl.
  destruct (py_max_fold_Z xs x) as (H1 & H2 & H3).
  eexists. split; [reflexivity|]. split.
  - destruct H3 as [->|H3]; [now left | now right].
  - intros y [<-|Hy]; [exact H1 | now apply H2].
Qed.

(** [combinations(xs, 2)] yields the pairs [(a, b)] with [a] before [b]. *)
Lemma combinations2_In {A : Type} (xs : list A) (a b : A) :
  In (a, b) (combinations2 xs) <->
  exists l1 l2 l3, xs = l1 ++ a :: l2 ++ b :: l3.
Proof.
  induction xs as [|x xs IH]; simpl.
  - split; [intros [] | intros (l1 & l2 & l3 & E)].
    destruct l1; discriminate.
  - rewrite in_app_iff, in_map_iff, IH. split.
    + intros [(y & E & Hy)|(l1 & l2 & l3 & ->)].
      * injection E as <- <-. apply in_split in Hy. destruct Hy as (l2 & l3 & ->).
        now exists [], l2, l3.
      * now exists (x :: l1), l2, l3.
    + intros (l1 & l2 & l3 & E). destruct l1 as [|z l1]; simpl in E.
      * injection E as <- ->. left. exists b. split; [reflexivity|].
        apply in_or_app. right. now left.
      * injection E as <- ->. right. now exists l1, l2, l3.
Qed.

Lemma combinations2_nil {A : Type} (xs : list A) :
  combinations2 xs = [] <-> length xs < 2.
Proof.
  destruct xs as [|x [|y xs]]; simpl.
  - split; [lia | reflexivity].
  - split; [lia | reflexivity].
  - split; [discriminate | lia].
Qed.

Section DiameterFacts.
Context {Node : Type} `{Hashable Node}.
Implicit Types (g : Graph Node).

(** X14.  [diameter] raises ([max] of an empty sequence) on a graph with
    fewer than two nodes.  Otherwise it returns the greatest
    [distance(a, b)] over the pairs of keys with [a] before [b] in the
    mapping (the opposite direction is not looked at); the value is
    attained by such a pair and lies between -1 and the number of
    nodes. *)
Theorem diameter_spec g :
  (length (nodes g) < 2 -> diameter g = inl ValueError) /\
  (2 <= length (nodes g) ->
   exists d, diameter g = inr d /\
     (exists a b l1 l2 l3,
         nodes g = l1 ++ a :: l2 ++ b :: l3 /\ distance g a b = d) /\
     (forall a b l1 l2 l3,
         nodes g = l1 ++ a :: l2 ++ b :: l3 -> (distance g a b <= d)%Z) /\
     (-1 <= d <= Z.of_nat (length (nodes g)))%Z).
Proof.
  unfold diameter. split.
  - intros Hlt. apply combinations2_nil in Hlt. now rewrite Hlt.
  - intros Hge.
    assert (Hne : map (fun p => distance g (fst p) (snd p)) (combinations2 (nodes g)) <> []).
    { intros E. apply map_eq_nil in E. apply combinations2_nil in E. lia. }
    destruct (py_max_spec_Z _ Hne) as (d & Hd & Hin & Hmax).
    exists d. split; [exact Hd|].
    apply in_map_iff in Hin. destruct Hin as ([a b] & Hab & Hin). simpl in Hab.
    split; [|split].
    + apply combinations2_In in Hin. destruct Hin as (l1 & l2 & l3 & E).
      now exists a, b, l1, l2, l3.
    + intros a' b' l1 l2 l3 E. apply Hmax.
      apply in_map_iff. exists (a', b'). split; [reflexivity|].
      apply combinations2_In. now exists l1, l2, l3.
    + subst d. unfold distance.
      destruct (depth_first_search g a b) as [p|] eqn:E; [|lia].
      apply depth_first_search_path in E. destruct E as (_ & _ & _ & Hlen). lia.
Qed.

End DiameterFacts.

(** ** Degree sequence *)

Lemma insert_desc_perm x xs : Permutation (insert_desc x xs) (x :: xs).
Proof.
  induction xs as [|y xs IH]; simpl; [apply Permutation_refl|].
  destruct (y <? x); [apply Permutation_refl|].
  eapply Permutation_trans; [apply perm_skip, IH | apply perm_swap].
Qed.

Lemma sorted_reverse_perm xs : Permutation (sorted_reverse xs) xs.
Proof.
  induction xs as [|x xs IH]; simpl; [apply Permutation_refl|].
  eapply Permutation_trans; [apply insert_desc_perm | now apply perm_skip].
Qed.

Lemma insert_desc_sorted x xs :
  StronglySorted ge xs -> StronglySorted ge (insert_desc x xs).
Proof.
  induction xs as [|y xs IH]; simpl; intros Hs.
  - repeat constructor.
  - destruct (y <? x) eqn:E; [apply Nat.ltb_lt in E | apply Nat.ltb_ge in E].
    + constructor; [exact Hs|]. inversion Hs as [|? ? Hs' Hall]; subst.
      constructor; [unfold ge; lia|].
      eapply Forall_impl; [|exact Hall]. intros z Hz. unfold ge in *. lia.
    + inversion Hs as [|? ? Hs' Hall]; subst.
      constructor; [now apply IH|].
      apply (Permutation_Forall (Permutation_sym (insert_desc_perm x xs))).
      constructor; [exact E | exact Hall].
Qed.

Lemma sorted_reverse_sorted xs : StronglySorted ge (sorted_reverse xs).
Proof.
  induction xs as [|x xs IH]; simpl; [constructor | now apply insert_desc_sorted].
Qed.

(** A list of ints has one descending arrangement. *)
Lemma descending_unique (l1 : list nat) : forall l2,
  StronglySorted ge l1 -> StronglySorted ge l2 -> Permutation l1 l2 -> l1 = l2.
Proof.
  induction l1 as [|x l1 IH]; intros l2 H1 H2 Hp.
  - apply Permutation_nil in Hp. now subst.
  - destruct l2 as [|y l2]; [apply Permutation_sym, Permutation_nil in Hp; discriminate|].
    inversion H1 as [|? ? H1' A1]; inversion H2 as [|? ? H2' A2]; subst.
    assert (Hxy : x = y).
    { assert (Hx : In x (y :: l2)) by (apply (Permutation_in _ Hp); now left).
      assert (Hy : In y (x :: l1))
        by (apply (Permutation_in _ (Permutation_sym Hp)); now left).
      rewrite Forall_forall in A1, A2. unfold ge in *.
      destruct Hx as [->|Hx]; [reflexivity|]. destruct Hy as [->|Hy]; [reflexivity|].
      specialize (A1 _ Hy). specialize (A2 _ Hx). lia. }
    subst y. f_equal. apply IH; [exact H1' | exact H2' |].
    now apply Permutation_cons_inv with x.
Qed.

Lemma descending_last (l : list nat) d :
  StronglySorted ge l -> forall x, In x l -> last l d <= x.
Proof.
  induction l as [|y l IH]; intros Hs x Hx; [contradiction|].
  inversion Hs as [|? ? Hs' Hall]; subst.
  destruct l as [|z l]; [destruct Hx as [->|[]]; simpl; lia|].
  change (last (y :: z :: l) d) with (last (z :: l) d).
  destruct Hx as [<-|Hx]; [|now apply IH].
  rewrite Forall_forall in Hall. unfold ge in Hall.
  apply Hall. clear. generalize z. induction l as [|w l IHl]; intros z'; simpl.
  - now left.
  - right. apply IHl.
Qed.

Section DegreeSequenceFacts.
Context {Node : Type} `{Hashable Node}.
Implicit Types (g : Graph Node).

(** X15.  [degree_sequence] is the descending arrangement of the node
    degrees, one entry per node (the only descending list with those
    entries); on a graph with nodes its first entry is [Delta()] and its
    last entry is [delta()]. *)
Theorem degree_sequence_spec g :
  Permutation (UndirectedGraph.degree_sequence g) (degrees g) /\
  StronglySorted ge (UndirectedGraph.degree_sequence g) /\
  length (UndirectedGraph.degree_sequence g) = __len__ g /\
  (forall l, Permutation l (degrees g) -> StronglySorted ge l ->
             l = UndirectedGraph.degree_sequence g) /\
  (nodes g <> [] ->
   Delta g = inr (hd 0 (UndirectedGraph.degree_sequence g)) /\
   delta g = inr (last (UndirectedGraph.degree_sequence g) 0)).
Proof.
  unfold UndirectedGraph.degree_sequence.
  pose proof (sorted_reverse_perm (degrees g)) as Hp.
  pose proof (sorted_reverse_sorted (degrees g)) as Hs.
  split; [exact Hp|]. split; [exact Hs|]. split; [|split].
  - rewrite (Permutation_length Hp). unfold degrees, nodes, __len__.
    now rewrite !length_map.
  - intros l Hl Hsl. apply descending_unique; [exact Hsl | exact Hs |].
    eapply Permutation_trans; [exact Hl | now apply Permutation_sym].
  - intros Hne.
    assert (Hd : degrees g <> []).
    { unfold degrees. destruct (nodes g); [congruence | discriminate]. }
    destruct (py_max_spec _ Hd) as (hi & Hhi & Hhi_in & Hhi_ge).
    destruct (py_min_spec _ Hd) as (lo & Hlo & Hlo_in & Hlo_le).
    unfold Delta, delta. rewrite Hhi, Hlo.
    set (ds := sorted_reverse (degrees g)) in *.
    assert (Hds : forall x, In x ds <-> In x (degrees g)).
    { intros x. split; apply Permutation_in; [exact Hp | now apply Permutation_sym]. }
    split; f_equal.
    + destruct ds as [|h t] eqn:Eds.
      * apply Hds in Hhi_in. contradiction.
      * simpl. inversion Hs as [|? ? _ Hall]; subst.
        rewrite Forall_forall in Hall. unfold ge in Hall.
        assert (Hh : h <= hi) by (apply Hhi_ge, Hds; now left).
        apply Hds in Hhi_in. destruct Hhi_in as [->|Ht]; [reflexivity|].
        specialize (Hall _ Ht). lia.
    + assert (Hl1 : last ds 0 <= lo) by (apply descending_last; [exact Hs | now apply Hds]).
      assert (Hl2 : In (last ds 0) ds).
      { destruct ds as [|h t] eqn:Eds; [apply Hds in Hlo_in; contradiction|].
        clear. generalize h. induction t as [|w t IHt]; intros h'; simpl.
        - now left.
        - right. apply IHt. }
      apply Hds, Hlo_le in Hl2. lia.
Qed.

End DegreeSequenceFacts.

(** ** Degree sums *)

Section DegreeSumFacts.
Context {Node : Type} `{Hashable Node}.
Implicit Types (g : Graph Node) (n m a b x : Node) (es : list (Node * Node)).

Lemma total_degree_append_at g n x :
  total_degree (append_at g n x)
  = total_degree g + 1 + (if node_eq_dec x n then 1 else 0).
Proof.
  unfold total_degree. induction g as [|[k v] g IH]; simpl.
  - destruct (node_eq_dec x n); lia.
  - destruct (node_eq_dec k n) as [->|Hkn]; simpl.
    + rewrite length_app, count_occ_app. simpl.
      destruct (node_eq_dec x n); lia.
    + rewrite IH. lia.
Qed.

Lemma total_degree_add_node g n : total_degree (add_node g n) = total_degree g.
Proof.
  unfold add_node, getitem. destruct (get g n); simpl; [reflexivity|].
  unfold total_degree. rewrite map_app, list_sum_app. simpl. lia.
Qed.

Lemma total_degree_degrees g :
  NoDup (nodes g) -> list_sum (degrees g) = total_degree g.
Proof.
  intros Hnd. unfold degrees, total_degree, nodes. rewrite map_map. f_equal.
  apply map_ext_in. intros [k v] Hkv. simpl.
  now rewrite node_degree_fst, adj_get, (@NoDup_get _ _ g k v Hnd Hkv).
Qed.

Lemma undirected_total_degree_add_edge pop_first g e :
  total_degree (UndirectedGraph.add_edge pop_first g e) = total_degree g + 2.
Proof.
  destruct e as [a b]. unfold UndirectedGraph.add_edge.
  destruct (node_eq_dec a b) as [->|Hab].
  - rewrite total_degree_append_at. destruct (node_eq_dec b b); [lia | congruence].
  - destruct (pop_first a b); rewrite !total_degree_append_at;
      destruct (node_eq_dec a b), (node_eq_dec b a); try congruence; lia.
Qed.

Lemma directed_total_degree_add_edge g e :
  total_degree (DirectedGraph.add_edge g e)
  = total_degree g + 1 + (if node_eq_dec (fst e) (snd e) then 1 else 0).
Proof.
  unfold DirectedGraph.add_edge.
  rewrite total_degree_append_at, total_degree_add_node.
  destruct (node_eq_dec (snd e) (fst e)), (node_eq_dec (fst e) (snd e));
    congruence || lia.
Qed.

(** X16.  Handshake: in an undirected graph built from an edge list the
    node degrees add up to twice the number of edges, self-loops
    included; and every [add_edge] raises the sum by 2. *)
Theorem undirected_degree_sum (pop_first : Node -> Node -> bool) :
  (forall es, list_sum (degrees (UndirectedGraph.new pop_first es)) = 2 * length es) /\
  (forall g e, NoDup (nodes g) ->
     list_sum (degrees (UndirectedGraph.add_edge pop_first g e))
     = list_sum (degrees g) + 2).
Proof.
  split.
  - intros es. rewrite total_degree_degrees by apply undirected_new_NoDup.
    unfold UndirectedGraph.new, init.
    assert (Hgen : forall g : Graph Node,
               total_degree (fold_left (UndirectedGraph.add_edge pop_first) es g)
               = total_degree g + 2 * length es).
    { induction es as [|e es IH]; intros g; simpl; [lia|].
      rewrite IH, undirected_total_degree_add_edge. lia. }
    apply (Hgen []).
  - intros g e Hnd.
    rewrite !total_degree_degrees;
      [apply undirected_total_degree_add_edge | exact Hnd
       | now apply undirected_NoDup_add_edge].
Qed.

(** X17.  In a directed graph built from an edge list the node degrees
    (out-degrees, self-loops counted twice) add up to the number of
    edges plus the number of self-loops. *)
Theorem directed_degree_sum es :
  list_sum (degrees (DirectedGraph.new es))
  = length es
    + length (filter (fun e => if node_eq_dec (fst e) (snd e) then true else false) es).
Proof.
  rewrite total_degree_degrees by apply (proj1 (directed_wf_new es)).
  unfold DirectedGraph.new, init.
  assert (Hgen : forall g : Graph Node,
             total_degree (fold_left DirectedGraph.add_edge es g)
             = total_degree g + length es
               + length (filter (fun e => if node_eq_dec (fst e) (snd e)
                                          then true else false) es)).
  { induction es as [|e es IH]; intros g; cbn [fold_left filter length]; [lia|].
    rewrite IH, directed_total_degree_add_edge.
    destruct (node_eq_dec (fst e) (snd e)); cbn [length]; lia. }
  apply (Hgen []).
Qed.

End DegreeSumFacts.

(** ** Independence of the set order *)

Section PopOrderFacts.
Context {Node : Type} `{Hashable Node}.
Implicit Types (g : Graph Node) (n s e : Node).

(** The search only reads the mapping through lookups. *)
Lemma dfs_rec_ext fuel : forall g1 g2 s e path,
  (forall n, get g1 n = get g2 n) ->
  dfs_rec fuel g1 s e path = dfs_rec fuel g2 s e path.
Proof.
  induction fuel as [|fuel IH]; intros g1 g2 s e path Hget; simpl; [reflexivity|].
  unfold has_key. rewrite !adj_get, Hget.
  destruct (node_eq_dec s e); [reflexivity|].
  destruct (get g2 s) as [v|]; simpl; [|reflexivity].
  destruct (first_unvisited v (path ++ [s])); [|reflexivity].
  now apply IH.
Qed.

Lemma depth_first_search_ext g1 g2 s e :
  (forall n, get g1 n = get g2 n) ->
  depth_first_search g1 s e = depth_first_search g2 s e.
Proof.
  intros Hget.
  set (fuel := S (Nat.max (length (nodes g1)) (length (nodes g2)))).
  assert (H1 := depth_first_search_fuel g1 s e fuel ltac:(unfold fuel; lia)).
  assert (H2 := depth_first_search_fuel g2 s e fuel ltac:(unfold fuel; lia)).
  rewrite (dfs_rec_ext fuel g1 g2 s e [] Hget) in H1. congruence.
Qed.

Lemma undirected_get_fold_ext pop1 pop2 es : forall g1 g2,
  (forall n, get g1 n = get g2 n) ->
  forall n, get (fold_left (UndirectedGraph.add_edge pop1) es g1) n
          = get (fold_left (UndirectedGraph.add_edge pop2) es g2) n.
Proof.
  induction es as [|[a b] es IH]; intros g1 g2 Hget; cbn [fold_left]; [exact Hget|].
  apply IH. intros n. rewrite !undirected_get_add_edge, !adj_get, Hget. reflexivity.
Qed.

(** X18.  What the sets pop first only decides the order of the keys:
    two undirected graphs built from the same edge list find the same
    node under every key, so adjacency lists, degrees, searches and
    distances are the same in both. *)
Theorem undirected_pop_order_irrelevant (pop1 pop2 : Node -> Node -> bool)
    (es : list (Node * Node)) :
  let g1 := UndirectedGraph.new pop1 es in
  let g2 := UndirectedGraph.new pop2 es in
  (forall n, get g1 n = get g2 n) /\
  Permutation (nodes g1) (nodes g2) /\
  (forall n, fst (node_degree g1 n) = fst (node_degree g2 n)) /\
  (forall s e, depth_first_search g1 s e = depth_first_search g2 s e) /\
  (forall s e, distance g1 s e = distance g2 s e).
Proof.
  intros g1 g2.
  assert (Hget : forall n, get g1 n = get g2 n).
  { apply undirected_get_fold_ext. reflexivity. }
  split; [exact Hget|]. split; [|split; [|split]].
  - apply NoDup_Permutation; try apply undirected_new_NoDup.
    intros n. unfold g1, g2. now rewrite !undirected_new_nodes.
  - intros n. now rewrite !node_degree_fst, !adj_get, Hget.
  - intros s e. now apply depth_first_search_ext.
  - intros s e. unfold distance. now rewrite (depth_first_search_ext g1 g2 s e Hget).
Qed.

End PopOrderFacts.

Section FurtherWitnesses.
Local Open Scope string_scope.

Lemma add_node_effect_witness :
  unmentioned docstring_graph "d" = true /\
  isolated_nodes (add_node docstring_graph "d")
  = (isolated_nodes docstring_graph ++ ["d"])%list /\
  is_connected (add_node docstring_graph "d") = false.
Proof.
  split; [reflexivity|].
  apply (proj2 (proj2 (proj2 (add_node_effect docstring_graph "d")))). reflexivity.
Defined.

Lemma node_degree_side_effect_witness :
  has_key docstring_graph "d" = false /\
  fst (node_degree docstring_graph "d") = 0 /\
  snd (node_degree docstring_graph "d") = (docstring_graph ++ [("d", [])])%list.
Proof.
  assert (Hk : has_key docstring_graph "d" = false) by reflexivity.
  split; [exact Hk|].
  destruct (proj1 (proj2 (node_degree_side_effect docstring_graph "d")) Hk)
    as (H0 & Hg & _).
  split; [exact H0 | exact Hg].
Defined.

Lemma add_edge_connects_witness :
  NoDup (nodes ([] : Graph string)) /\
  ~ In "a" (isolated_nodes (UndirectedGraph.add_edge pop_in_order [] ("a", "b"))).
Proof.
  split; [constructor|].
  apply (proj1 (proj1 (add_edge_connects pop_in_order [] "a" "b" (NoDup_nil string)))).
Defined.

Lemma depth_first_search_sound_witness :
  depth_first_search docstring_graph "b" "c" = Some ["b"; "a"; "c"] /\
  walk docstring_graph ["b"; "a"; "c"] = true.
Proof.
  assert (Hp : depth_first_search docstring_graph "b" "c" = Some ["b"; "a"; "c"])
    by reflexivity.
  split; [exact Hp|].
  apply (proj1 (depth_first_search_sound docstring_graph "b" "c" _ Hp)).
Defined.

Lemma diameter_spec_witness :
  2 <= length (nodes docstring_graph) /\
  exists d, diameter docstring_graph = inr d /\
            (-1 <= d <= Z.of_nat (length (nodes docstring_graph)))%Z.
Proof.
  split; [simpl; lia|].
  destruct (proj2 (diameter_spec docstring_graph)) as (d & Hd & _ & _ & Hr);
    [simpl; lia|].
  exists d. split; [exact Hd | exact Hr].
Defined.

Lemma degree_sequence_spec_witness :
  nodes docstring_graph <> [] /\
  Delta docstring_graph
  = inr (hd 0 (UndirectedGraph.degree_sequence docstring_graph)).
Proof.
  split; [discriminate|].
  apply (proj2 (proj2 (proj2 (proj2 (degree_sequence_spec docstring_graph))))).
  discriminate.
Defined.

Lemma undirected_degree_sum_witness :
  NoDup (nodes ([] : Graph string)) /\
  list_sum (degrees (UndirectedGraph.add_edge pop_in_order [] ("a", "b")))
  = list_sum (degrees ([] : Graph string)) + 2.
Proof.
  split; [constructor|].
  apply (proj2 (undirected_degree_sum pop_in_order) [] ("a", "b")). constructor.
Defined.

End FurtherWitnesses.
